(** * Multi-touch attribution analyzer

    A shallow embedding of
    [skills/campaign-analytics/scripts/attribution_analyzer.py] and the
    properties of its five attribution models, its dispatcher and its summary.

    Modelling choices:
    - In the main development Python floats are real numbers ([R]): its
      statements are about exact arithmetic, the arithmetic in which the
      attribution rules are stated.  What rounding, infinities and NaN change
      is settled in the last part, [Binary64], where the first-touch and the
      time-decay model are embedded over IEEE 754 binary64.
    - A credit ledger ([Dict[str, float]]) is a [gmap string R]; Python
      compares dicts without regard to insertion order, and so does [=] on
      [gmap].
    - A journey is a record of optional fields, read with [dict.get] and the
      default written at each use in the source.
    - Exceptions are the [Raise] results of a small error monad.
    - [datetime.strptime] and [round] belong to the Python library: they are
      parameters of the development.  The formats used in the source carry no
      fraction of a second, so a parsed [datetime] is a whole number of
      seconds on the naive time line. *)

From Stdlib Require Import Reals Lra ZArith Ascii String Floats.
From stdpp Require Import gmap strings list sorting.

Local Open Scope Z_scope.
Local Open Scope R_scope.

(** ** Exceptions and results *)

Inductive exception : Type :=
  | ValueError (msg : string)
  | ZeroDivisionError
  | IndexError
  | OverflowError.

Inductive result (A : Type) : Type :=
  | Ok (a : A)
  | Raise (e : exception).

Arguments Ok {A} a.
Arguments Raise {A} e.

Definition bind {A B : Type} (r : result A) (k : A -> result B) : result B :=
  match r with
  | Ok a => k a
  | Raise e => Raise e
  end.

Notation "'let*' x ':=' r 'in' k" := (bind r (fun x => k))
  (at level 10, x name, r at level 100, k at level 200).

Definition is_ok {A : Type} (r : result A) : bool :=
  match r with Ok _ => true | Raise _ => false end.

(** ** Data model *)

Record Touchpoint : Type := {
  channel : string;
  timestamp : string
}.

(** A journey as deserialized from JSON: each key may be absent. *)
Record Journey : Type := {
  converted : option bool;
  revenue : option R;
  touchpoints : option (list Touchpoint)
}.

(** [journey.get("converted", False)] *)
Definition get_converted (journey : Journey) : bool :=
  default false (converted journey).

(** [journey.get("touchpoints", [])] *)
Definition get_touchpoints (journey : Journey) : list Touchpoint :=
  default [] (touchpoints journey).

(** [journey.get("revenue", d)] *)
Definition get_revenue (journey : Journey) (d : R) : R :=
  default d (revenue journey).

(** A naive [datetime] without microseconds, as its number of seconds. *)
Definition datetime : Type := Z.

(** [(a - b).total_seconds()] *)
Definition total_seconds_between (a b : datetime) : R := IZR (a - b).

(** The credit ledger [Dict[str, float]]; [credits.get(channel, 0.0)]. *)
Definition dict_get (credits : gmap string R) (k : string) (d : R) : R :=
  default d (credits !! k).

(** [credits[channel] = credits.get(channel, 0.0) + amount] *)
Definition add_credit (credits : gmap string R) (ch : string) (amount : R)
  : gmap string R :=
  <[ch := dict_get credits ch 0 + amount]> credits.

Definition MODELS : list string :=
  ["first-touch"; "last-touch"; "linear"; "time-decay"; "position-based"]%string.

(** ** Python list primitives *)

(** [l[i]], with negative indices counted from the end. *)
Definition getitem {A : Type} (l : list A) (i : Z) : result A :=
  let n := Z.of_nat (length l) in
  let k := if (i <? 0)%Z then (i + n)%Z else i in
  if (k <? 0)%Z then Raise IndexError
  else match l !! Z.to_nat k with
       | Some x => Ok x
       | None => Raise IndexError
       end.

(** [l[start:stop]] with Python's clamping of the bounds. *)
Definition slice_bound (n i : Z) : Z :=
  let k := if (i <? 0)%Z then (i + n)%Z else i in
  Z.max 0 (Z.min n k).

Definition slice {A : Type} (l : list A) (start stop : Z) : list A :=
  let n := Z.of_nat (length l) in
  let lo := slice_bound n start in
  let hi := slice_bound n stop in
  take (Z.to_nat (hi - lo)) (drop (Z.to_nat lo) l).

(** [sum(l)] *)
Definition sum (l : list R) : R := foldr Rplus 0 l.

(** [safe_divide(numerator, denominator, default)] *)
Definition safe_divide_default (numerator denominator default : R) : R :=
  if Req_dec_T denominator 0 then default else numerator / denominator.

Definition safe_divide (numerator denominator : R) : R :=
  safe_divide_default numerator denominator 0.

(** [sorted(l, key=key)]: the keys are computed first, in list order (the
    first failing key raises), then the list is sorted stably on them. *)
Fixpoint with_keys {A : Type} (key : A -> result datetime) (l : list A)
  : result (list (datetime * A)) :=
  match l with
  | [] => Ok []
  | x :: rest =>
      let* k := key x in
      let* krest := with_keys key rest in
      Ok ((k, x) :: krest)
  end.

Fixpoint insert_by_key {A : Type} (x : datetime * A) (l : list (datetime * A))
  : list (datetime * A) :=
  match l with
  | [] => [x]
  | y :: rest =>
      if (x.1 <=? y.1)%Z then x :: y :: rest else y :: insert_by_key x rest
  end.

Definition sort_by_key {A : Type} (l : list (datetime * A))
  : list (datetime * A) :=
  foldr insert_by_key [] l.

Definition sorted {A : Type} (l : list A) (key : A -> result datetime)
  : result (list A) :=
  let* kl := with_keys key l in
  Ok ((sort_by_key kl).*2).

(** [for journey in journeys: body], threading the ledger. *)
Fixpoint for_journeys (body : gmap string R -> Journey -> result (gmap string R))
    (journeys : list Journey) (credits : gmap string R)
  : result (gmap string R) :=
  match journeys with
  | [] => Ok credits
  | journey :: rest =>
      let* credits' := body credits journey in
      for_journeys body rest credits'
  end.

(** [sep.join(l)] *)
Fixpoint join (sep : string) (l : list string) : string :=
  match l with
  | [] => EmptyString
  | [x] => x
  | x :: rest => String.append x (String.append sep (join sep rest))
  end.

(** [not l], for a list. *)
Definition is_empty {A : Type} (l : list A) : bool :=
  match l with [] => true | _ => false end.

(** The dataset summary returned by [compute_summary]. *)
Record Summary : Type := {
  total_journeys : nat;
  converted_journeys : nat;
  conversion_rate : R;
  total_revenue : R;
  channels_observed : list string
}.

(** The order of [str] comparison, on the bytes of the string. *)
Definition str_le (s1 s2 : string) : Prop := Is_true (String.leb s1 s2).

Global Instance str_le_dec (s1 s2 : string) : Decision (str_le s1 s2).
Proof. unfold str_le. apply _. Defined.

(** ** A reference [strptime]

    An instance of the library parameter for the three formats of the source,
    accepting zero-padded ASCII fields of a valid calendar date and time of
    day.  The theorems below hold for every [strptime]; this one evaluates
    them on concrete journeys. *)

Definition digit_of (a : ascii) : option Z :=
  let n := Z.of_N (N_of_ascii a) in
  if ((48 <=? n) && (n <=? 57))%Z then Some (n - 48)%Z else None.

Fixpoint number_of (acc : Z) (l : list ascii) : option Z :=
  match l with
  | [] => Some acc
  | a :: rest =>
      match digit_of a with
      | Some d => number_of (10 * acc + d)%Z rest
      | None => None
      end
  end.

Definition is_leap (y : Z) : bool :=
  ((y mod 4 =? 0) && (negb (y mod 100 =? 0) || (y mod 400 =? 0)))%Z.

Definition days_in_month (y m : Z) : Z :=
  (if m =? 2 then (if is_leap y then 29 else 28)
   else if (m =? 4) || (m =? 6) || (m =? 9) || (m =? 11) then 30
   else 31)%Z.

(** Days of the proleptic Gregorian calendar, counted from 1970-01-01. *)
Definition days_from_civil (y m d : Z) : Z :=
  (let y' := if m <=? 2 then y - 1 else y in
   let era := y' / 400 in
   let yoe := y' - era * 400 in
   let doy := (153 * (if m <=? 2 then m + 9 else m - 3) + 2) / 5 + d - 1 in
   let doe := yoe * 365 + yoe / 4 - yoe / 100 + doy in
   era * 146097 + doe - 719468)%Z.

Definition parse_date (l : list ascii) : option Z :=
  match l with
  | [y1; y2; y3; y4; "-"; m1; m2; "-"; d1; d2]%char =>
      match number_of 0 [y1; y2; y3; y4], number_of 0 [m1; m2],
            number_of 0 [d1; d2] with
      | Some y, Some m, Some d =>
          if ((1 <=? y) && (1 <=? m) && (m <=? 12) && (1 <=? d)
              && (d <=? days_in_month y m))%Z
          then Some (days_from_civil y m d) else None
      | _, _, _ => None
      end
  | _ => None
  end.

Definition parse_time_of_day (l : list ascii) : option Z :=
  match l with
  | [h1; h2; ":"; m1; m2; ":"; s1; s2]%char =>
      match number_of 0 [h1; h2], number_of 0 [m1; m2],
            number_of 0 [s1; s2] with
      | Some h, Some m, Some s =>
          if ((h <=? 23) && (m <=? 59) && (s <=? 59))%Z
          then Some (h * 3600 + m * 60 + s)%Z else None
      | _, _, _ => None
      end
  | _ => None
  end.

Definition parse_date_time (sep : ascii) (l : list ascii) : option Z :=
  match parse_date (take 10 l), l !! 10%nat, parse_time_of_day (drop 11 l) with
  | Some days, Some c, Some secs =>
      if Ascii.eqb c sep then Some (days * 86400 + secs)%Z else None
  | _, _, _ => None
  end.

Definition strptime_iso (ts fmt : string) : option datetime :=
  let l := list_ascii_of_string ts in
  if String.eqb fmt "%Y-%m-%dT%H:%M:%S" then parse_date_time "T" l
  else if String.eqb fmt "%Y-%m-%d %H:%M:%S" then parse_date_time " " l
  else if String.eqb fmt "%Y-%m-%d" then
    match parse_date l with
    | Some days => Some (days * 86400)%Z
    | None => None
    end
  else None.

(** ** A reference [round]

    Rounding of a real to [ndigits] decimal places, halves to the even
    neighbour, as the builtin does on the value it is given. *)
Definition round_half_even (x : R) (ndigits : Z) : R :=
  let scale := powerRZ 10 ndigits in
  let y := x * scale in
  let f := Int_part y in
  let frac := y - IZR f in
  let q := if Rlt_dec frac (1 / 2) then f
           else if Rlt_dec (1 / 2) frac then (f + 1)%Z
           else if Z.even f then f else (f + 1)%Z in
  IZR q / scale.

(** The time of a touchpoint under the reference [strptime], in the first
    of the three formats that accepts its timestamp. *)
Definition time_of_iso (tp : Touchpoint) : datetime :=
  let ts := timestamp tp in
  match strptime_iso ts "%Y-%m-%dT%H:%M:%S",
        strptime_iso ts "%Y-%m-%d %H:%M:%S",
        strptime_iso ts "%Y-%m-%d" with
  | Some t, _, _ => t
  | None, Some t, _ => t
  | None, None, Some t => t
  | None, None, None => 0%Z
  end.

(** ** Sample journeys *)

Definition tp_A : Touchpoint :=
  {| channel := "A"; timestamp := "2024-01-01" |}.

Definition tp_B : Touchpoint :=
  {| channel := "B"; timestamp := "2024-01-06 00:00:00" |}.

Definition tp_C : Touchpoint :=
  {| channel := "C"; timestamp := "2024-01-11T00:00:00" |}.

(** Revenue 100 over A (day 0), B (day 5), C (day 10), given out of order. *)
Definition journey_abc : Journey :=
  {| converted := Some true; revenue := Some 100;
     touchpoints := Some [tp_C; tp_A; tp_B] |}.

(** 2024-01-11T00:00:00, in seconds. *)
Definition latest_abc : datetime := 1704931200%Z.

(** No [converted] key. *)
Definition journey_unconverted : Journey :=
  {| converted := None; revenue := Some 50; touchpoints := Some [tp_B] |}.

(** Converted, no [revenue] key. *)
Definition journey_no_revenue : Journey :=
  {| converted := Some true; revenue := None; touchpoints := Some [tp_A] |}.

(** Converted, with a timestamp in none of the accepted formats. *)
Definition journey_bad_timestamp : Journey :=
  {| converted := Some true; revenue := Some 100;
     touchpoints := Some [{| channel := "email"; timestamp := "yesterday" |}] |}.

(** ** The analyzer *)

Section Attribution.

(** [datetime.strptime(ts, fmt)]; [None] stands for its [ValueError]. *)
Variable strptime : string -> string -> option datetime.

(** The builtin [round(x, ndigits)]. *)
Variable round : R -> Z -> R.

Fixpoint try_formats (ts : string) (formats : list string) : result datetime :=
  match formats with
  | [] => Raise (ValueError (String.append "Cannot parse timestamp: " ts))
  | fmt :: rest =>
      match strptime ts fmt with
      | Some d => Ok d
      | None => try_formats ts rest
      end
  end.

Definition parse_timestamp (ts : string) : result datetime :=
  try_formats ts ["%Y-%m-%dT%H:%M:%S"; "%Y-%m-%d %H:%M:%S"; "%Y-%m-%d"]%string.

(** [lambda t: parse_timestamp(t["timestamp"])] *)
Definition timestamp_key (t : Touchpoint) : result datetime :=
  parse_timestamp (timestamp t).

Definition first_touch_body (credits : gmap string R) (journey : Journey)
  : result (gmap string R) :=
  if negb (get_converted journey) then Ok credits else
  let touchpoints := get_touchpoints journey in
  if is_empty touchpoints then Ok credits else
  let* sorted_tp := sorted touchpoints timestamp_key in
  let* first := getitem sorted_tp 0 in
  let revenue := get_revenue journey 1 in
  Ok (add_credit credits (channel first) revenue).

Definition first_touch_attribution (journeys : list Journey)
  : result (gmap string R) :=
  for_journeys first_touch_body journeys ∅.

Definition last_touch_body (credits : gmap string R) (journey : Journey)
  : result (gmap string R) :=
  if negb (get_converted journey) then Ok credits else
  let touchpoints := get_touchpoints journey in
  if is_empty touchpoints then Ok credits else
  let* sorted_tp := sorted touchpoints timestamp_key in
  let* last := getitem sorted_tp (-1) in
  let revenue := get_revenue journey 1 in
  Ok (add_credit credits (channel last) revenue).

Definition last_touch_attribution (journeys : list Journey)
  : result (gmap string R) :=
  for_journeys last_touch_body journeys ∅.

(** [for tp in tps: credits[tp["channel"]] = credits.get(...) + share] *)
Definition credit_each (share : R) (tps : list Touchpoint)
    (credits : gmap string R) : gmap string R :=
  foldl (fun acc tp => add_credit acc (channel tp) share) credits tps.

Definition linear_body (credits : gmap string R) (journey : Journey)
  : result (gmap string R) :=
  if negb (get_converted journey) then Ok credits else
  let touchpoints := get_touchpoints journey in
  if is_empty touchpoints then Ok credits else
  let revenue := get_revenue journey 1 in
  let share := safe_divide revenue (INR (length touchpoints)) in
  Ok (credit_each share touchpoints credits).

Definition linear_attribution (journeys : list Journey)
  : result (gmap string R) :=
  for_journeys linear_body journeys ∅.

(** The loop "Calculate raw weights" of [time_decay_attribution]. *)
Fixpoint raw_weights (decay_rate : R) (conversion_time : datetime)
    (sorted_tp : list Touchpoint) : result (list R) :=
  match sorted_tp with
  | [] => Ok []
  | tp :: rest =>
      let* tp_time := parse_timestamp (timestamp tp) in
      let days_before := total_seconds_between conversion_time tp_time / 86400 in
      let weight := exp (- decay_rate * days_before) in
      let* weights := raw_weights decay_rate conversion_time rest in
      Ok (weight :: weights)
  end.

(** [for i, tp in enumerate(sorted_tp)], entered at index [i]. *)
Fixpoint credit_shares (weights : list R) (total_weight revenue : R)
    (i : nat) (sorted_tp : list Touchpoint) (credits : gmap string R)
  : result (gmap string R) :=
  match sorted_tp with
  | [] => Ok credits
  | tp :: rest =>
      let* w := getitem weights (Z.of_nat i) in
      let share := safe_divide w total_weight * revenue in
      credit_shares weights total_weight revenue (S i) rest
        (add_credit credits (channel tp) share)
  end.

Definition time_decay_body (decay_rate : R) (credits : gmap string R)
    (journey : Journey) : result (gmap string R) :=
  if negb (get_converted journey) then Ok credits else
  let touchpoints := get_touchpoints journey in
  if is_empty touchpoints then Ok credits else
  let revenue := get_revenue journey 1 in
  let* sorted_tp := sorted touchpoints timestamp_key in
  let* last := getitem sorted_tp (-1) in
  let* conversion_time := parse_timestamp (timestamp last) in
  let* weights := raw_weights decay_rate conversion_time sorted_tp in
  let total_weight := sum weights in
  if Req_dec_T total_weight 0 then Ok credits else
  credit_shares weights total_weight revenue 0 sorted_tp credits.

Definition time_decay_attribution (journeys : list Journey)
    (half_life_days : R) : result (gmap string R) :=
  if Req_dec_T half_life_days 0 then Raise ZeroDivisionError else
  let decay_rate := ln 2 / half_life_days in
  for_journeys (time_decay_body decay_rate) journeys ∅.

Definition position_based_body (credits : gmap string R) (journey : Journey)
  : result (gmap string R) :=
  if negb (get_converted journey) then Ok credits else
  let touchpoints := get_touchpoints journey in
  if is_empty touchpoints then Ok credits else
  let revenue := get_revenue journey 1 in
  let* sorted_tp := sorted touchpoints timestamp_key in
  if (length sorted_tp =? 1)%nat then
    let* only := getitem sorted_tp 0 in
    Ok (add_credit credits (channel only) revenue)
  else if (length sorted_tp =? 2)%nat then
    let* first := getitem sorted_tp 0 in
    let* last := getitem sorted_tp (-1) in
    let credits := add_credit credits (channel first) (revenue * 0.5) in
    Ok (add_credit credits (channel last) (revenue * 0.5))
  else
    let* first := getitem sorted_tp 0 in
    let* last := getitem sorted_tp (-1) in
    let credits := add_credit credits (channel first) (revenue * 0.4) in
    let credits := add_credit credits (channel last) (revenue * 0.4) in
    let middle_count := (Z.of_nat (length sorted_tp) - 2)%Z in
    let middle_share := safe_divide (revenue * 0.2) (IZR middle_count) in
    Ok (credit_each middle_share (slice sorted_tp 1 (-1)) credits).

Definition position_based_attribution (journeys : list Journey)
  : result (gmap string R) :=
  for_journeys position_based_body journeys ∅.

Definition run_model (model_name : string) (journeys : list Journey)
    (half_life : R) : result (gmap string R) :=
  if String.eqb model_name "first-touch" then
    first_touch_attribution journeys
  else if String.eqb model_name "last-touch" then
    last_touch_attribution journeys
  else if String.eqb model_name "linear" then
    linear_attribution journeys
  else if String.eqb model_name "time-decay" then
    time_decay_attribution journeys half_life
  else if String.eqb model_name "position-based" then
    position_based_attribution journeys
  else
    Raise (ValueError
      (String.append "Unknown model: "
        (String.append model_name
          (String.append ". Choose from: " (join ", " MODELS))))).

(** The locals of [compute_summary]. *)
Definition summary_converted (journeys : list Journey) : nat :=
  length (filter (fun j => Is_true (get_converted j)) journeys).

(** The local [total_revenue], the argument of the final [round]. *)
Definition summary_total_revenue (journeys : list Journey) : R :=
  sum ((fun j => get_revenue j 0) <$>
       filter (fun j => Is_true (get_converted j)) journeys).

Definition summary_all_channels (journeys : list Journey) : gset string :=
  foldl (fun acc j =>
           foldl (fun acc tp => acc ∪ {[channel tp]}) acc (get_touchpoints j))
        ∅ journeys.

Definition compute_summary (journeys : list Journey) : Summary :=
  let total := length journeys in
  let converted := summary_converted journeys in
  {| total_journeys := total;
     converted_journeys := converted;
     conversion_rate :=
       round (safe_divide (INR converted) (INR total) * 100) 2;
     total_revenue := round (summary_total_revenue journeys) 2;
     channels_observed := merge_sort str_le (elements (summary_all_channels journeys)) |}.


(** ** Specification vocabulary *)

(** The sum of all credit in a ledger. *)
Definition ledger_total (credits : gmap string R) : R :=
  map_fold (fun _ v acc => v + acc) 0 credits.

(** No entry of the ledger is negative. *)
Definition ledger_nonneg (credits : gmap string R) : Prop :=
  map_Forall (fun _ v => 0 <= v) credits.

(** A journey's contribution: the (channel, amount) updates it makes, in
    the order the source makes them. *)
Definition apply_credits (cs : list (string * R)) (credits : gmap string R)
  : gmap string R :=
  foldl (fun acc c => add_credit acc c.1 c.2) credits cs.

(** A journey takes part in attribution when it is converted and has a
    touchpoint. *)
Definition eligible (journey : Journey) : bool :=
  get_converted journey && negb (is_empty (get_touchpoints journey)).

(** Every touchpoint of the journey has a timestamp in an accepted format. *)
Definition parseable (journey : Journey) : bool :=
  forallb (fun tp => is_ok (parse_timestamp (timestamp tp)))
          (get_touchpoints journey).

(** The updates of one journey under each model, with the ledger left out. *)
Definition first_touch_credits (journey : Journey)
  : result (list (string * R)) :=
  if negb (get_converted journey) then Ok [] else
  let touchpoints := get_touchpoints journey in
  if is_empty touchpoints then Ok [] else
  let* sorted_tp := sorted touchpoints timestamp_key in
  let* first := getitem sorted_tp 0 in
  Ok [(channel first, get_revenue journey 1)].

Definition last_touch_credits (journey : Journey)
  : result (list (string * R)) :=
  if negb (get_converted journey) then Ok [] else
  let touchpoints := get_touchpoints journey in
  if is_empty touchpoints then Ok [] else
  let* sorted_tp := sorted touchpoints timestamp_key in
  let* last := getitem sorted_tp (-1) in
  Ok [(channel last, get_revenue journey 1)].

Definition each_gets (share : R) (tps : list Touchpoint) : list (string * R) :=
  (fun tp => (channel tp, share)) <$> tps.

Definition linear_credits (journey : Journey) : result (list (string * R)) :=
  if negb (get_converted journey) then Ok [] else
  let touchpoints := get_touchpoints journey in
  if is_empty touchpoints then Ok [] else
  let revenue := get_revenue journey 1 in
  Ok (each_gets (safe_divide revenue (INR (length touchpoints))) touchpoints).

Fixpoint share_list (weights : list R) (total_weight revenue : R) (i : nat)
    (sorted_tp : list Touchpoint) : result (list (string * R)) :=
  match sorted_tp with
  | [] => Ok []
  | tp :: rest =>
      let* w := getitem weights (Z.of_nat i) in
      let* cs := share_list weights total_weight revenue (S i) rest in
      Ok ((channel tp, safe_divide w total_weight * revenue) :: cs)
  end.

Definition time_decay_credits (decay_rate : R) (journey : Journey)
  : result (list (string * R)) :=
  if negb (get_converted journey) then Ok [] else
  let touchpoints := get_touchpoints journey in
  if is_empty touchpoints then Ok [] else
  let revenue := get_revenue journey 1 in
  let* sorted_tp := sorted touchpoints timestamp_key in
  let* last := getitem sorted_tp (-1) in
  let* conversion_time := parse_timestamp (timestamp last) in
  let* weights := raw_weights decay_rate conversion_time sorted_tp in
  let total_weight := sum weights in
  if Req_dec_T total_weight 0 then Ok [] else
  share_list weights total_weight revenue 0 sorted_tp.

Definition position_based_credits (journey : Journey)
  : result (list (string * R)) :=
  if negb (get_converted journey) then Ok [] else
  let touchpoints := get_touchpoints journey in
  if is_empty touchpoints then Ok [] else
  let revenue := get_revenue journey 1 in
  let* sorted_tp := sorted touchpoints timestamp_key in
  if (length sorted_tp =? 1)%nat then
    let* only := getitem sorted_tp 0 in
    Ok [(channel only, revenue)]
  else if (length sorted_tp =? 2)%nat then
    let* first := getitem sorted_tp 0 in
    let* last := getitem sorted_tp (-1) in
    Ok [(channel first, revenue * 0.5); (channel last, revenue * 0.5)]
  else
    let* first := getitem sorted_tp 0 in
    let* last := getitem sorted_tp (-1) in
    let middle_count := (Z.of_nat (length sorted_tp) - 2)%Z in
    let middle_share := safe_divide (revenue * 0.2) (IZR middle_count) in
    Ok ((channel first, revenue * 0.4) :: (channel last, revenue * 0.4)
        :: each_gets middle_share (slice sorted_tp 1 (-1))).

(** The updates of a whole journey list, in processing order; the first
    journey that raises decides the error. *)
Fixpoint journeys_credits (contrib : Journey -> result (list (string * R)))
    (journeys : list Journey) : result (list (string * R)) :=
  match journeys with
  | [] => Ok []
  | journey :: rest =>
      let* cs := contrib journey in
      let* more := journeys_credits contrib rest in
      Ok (cs ++ more)
  end.

(** The per-journey updates of the model [run_model] dispatches to. *)
Definition model_credits (model_name : string) (half_life : R)
  : Journey -> result (list (string * R)) :=
  if String.eqb model_name "first-touch" then first_touch_credits
  else if String.eqb model_name "last-touch" then last_touch_credits
  else if String.eqb model_name "linear" then linear_credits
  else if String.eqb model_name "time-decay" then
    time_decay_credits (ln 2 / half_life)
  else position_based_credits.

(** The weight of a touchpoint at time [t] when the conversion time is
    [conversion_time]: [exp(-decay_rate * days_before)]. *)
Definition decay_weight (decay_rate : R) (conversion_time t : datetime) : R :=
  exp (- decay_rate * (IZR (conversion_time - t) / 86400)).

(** [days_before_i]: days from a touchpoint at [t] to the latest one. *)
Definition days_before (latest t : datetime) : R := IZR (latest - t) / 86400.


(** [a] is not later than [b], both timestamps being parseable. *)
Definition chronological (a b : Touchpoint) : Prop :=
  exists ta tb : datetime,
    timestamp_key a = Ok ta /\ timestamp_key b = Ok tb /\ (ta <= tb)%Z.

(** The error [parse_timestamp] raises on the string [ts]. *)
Definition parse_error (ts : string) : exception :=
  ValueError (String.append "Cannot parse timestamp: " ts).

(** Order of keyed elements produced by [sorted]. *)
Definition key_le {A : Type} (p q : datetime * A) : Prop := (p.1 <= q.1)%Z.

(** ** Ledger arithmetic *)

Lemma lookup_add_credit (credits : gmap string R) (a k : string) (x : R) :
  add_credit credits a x !! k
  = if decide (a = k) then Some (dict_get credits a 0 + x) else credits !! k.
Proof. unfold add_credit. apply lookup_insert. Qed.

Lemma dict_get_add_credit (credits : gmap string R) (a k : string) (x : R) :
  dict_get (add_credit credits a x) k 0
  = if decide (a = k) then dict_get credits k 0 + x else dict_get credits k 0.
Proof.
  unfold dict_get at 1. rewrite lookup_add_credit.
  destruct (decide (a = k)) as [->|]; reflexivity.
Qed.

Lemma add_credit_comm (credits : gmap string R) (a b : string) (x y : R) :
  add_credit (add_credit credits a x) b y
  = add_credit (add_credit credits b y) a x.
Proof.
  apply map_eq. intros k.
  rewrite !lookup_add_credit, !dict_get_add_credit.
  destruct (decide (b = k)) as [->|Hb], (decide (a = k)) as [->|Ha];
    repeat case_decide; try congruence; try reflexivity.
  f_equal. lra.
Qed.


Lemma ledger_total_insert_fresh (credits : gmap string R) (k : string) (v : R) :
  credits !! k = None ->
  ledger_total (<[k := v]> credits) = v + ledger_total credits.
Proof.
  intros Hk. unfold ledger_total.
  apply (map_fold_insert_L (fun _ v acc => v + acc)); [|exact Hk].
  intros. lra.
Qed.

Lemma ledger_total_add_credit (credits : gmap string R) (a : string) (x : R) :
  ledger_total (add_credit credits a x) = ledger_total credits + x.
Proof.
  unfold add_credit, dict_get.
  destruct (credits !! a) as [v|] eqn:Ha; simpl.
  - rewrite <- (insert_delete_eq credits a (v + x)).
    rewrite ledger_total_insert_fresh by apply lookup_delete_eq.
    rewrite <- (insert_id credits a v Ha) at 2.
    rewrite <- (insert_delete_eq credits a v).
    rewrite ledger_total_insert_fresh by apply lookup_delete_eq.
    lra.
  - rewrite ledger_total_insert_fresh by exact Ha. lra.
Qed.

Lemma ledger_nonneg_add_credit (credits : gmap string R) (a : string) (x : R) :
  ledger_nonneg credits -> 0 <= x -> ledger_nonneg (add_credit credits a x).
Proof.
  intros Hc Hx k v. rewrite lookup_add_credit.
  destruct (decide (a = k)) as [->|]; [|apply Hc].
  intros [= <-]. unfold dict_get.
  destruct (credits !! k) as [w|] eqn:Hk; simpl; [|lra].
  specialize (Hc k w Hk). simpl in Hc. lra.
Qed.

Lemma apply_credits_app (cs ds : list (string * R)) (credits : gmap string R) :
  apply_credits (cs ++ ds) credits = apply_credits ds (apply_credits cs credits).
Proof. unfold apply_credits. apply foldl_app. Qed.

Lemma apply_credits_add_credit (cs : list (string * R))
    (credits : gmap string R) (a : string) (x : R) :
  apply_credits cs (add_credit credits a x)
  = add_credit (apply_credits cs credits) a x.
Proof.
  revert credits. induction cs as [|c cs IH]; intros credits; [reflexivity|].
  simpl. rewrite <- IH. f_equal. apply add_credit_comm.
Qed.

Lemma apply_credits_perm (cs ds : list (string * R)) (credits : gmap string R) :
  cs ≡ₚ ds -> apply_credits cs credits = apply_credits ds credits.
Proof.
  intros Hp. revert credits.
  induction Hp as [|c cs ds _ IH|c d cs|cs ds es _ IH1 _ IH2]; intros credits.
  - reflexivity.
  - simpl. apply IH.
  - simpl. f_equal. apply add_credit_comm.
  - rewrite IH1. apply IH2.
Qed.

Lemma apply_credits_cons (c : string * R) (cs : list (string * R))
    (credits : gmap string R) :
  apply_credits (c :: cs) credits = apply_credits cs (add_credit credits c.1 c.2).
Proof. reflexivity. Qed.

Lemma sum_cons (x : R) (l : list R) : sum (x :: l) = x + sum l.
Proof. reflexivity. Qed.

Lemma sum_app (l k : list R) : sum (l ++ k) = sum l + sum k.
Proof.
  induction l as [|x l IH].
  - change (sum []) with 0. rewrite app_nil_l. lra.
  - rewrite <- app_comm_cons, !sum_cons, IH. lra.
Qed.

Lemma ledger_total_apply_credits (cs : list (string * R))
    (credits : gmap string R) :
  ledger_total (apply_credits cs credits) = ledger_total credits + sum (cs.*2).
Proof.
  revert credits. induction cs as [|c cs IH]; intros credits.
  - change (sum ([].*2)) with 0. change (apply_credits [] credits) with credits.
    lra.
  - rewrite apply_credits_cons, IH, ledger_total_add_credit.
    rewrite fmap_cons, sum_cons. lra.
Qed.

Lemma ledger_nonneg_apply_credits (cs : list (string * R))
    (credits : gmap string R) :
  Forall (fun c => 0 <= c.2) cs -> ledger_nonneg credits ->
  ledger_nonneg (apply_credits cs credits).
Proof.
  intros Hcs. revert credits.
  induction Hcs as [|c cs Hc _ IH]; intros credits Hn; [exact Hn|].
  rewrite apply_credits_cons.
  apply IH. apply ledger_nonneg_add_credit; assumption.
Qed.

(** ** List primitives *)

Lemma bind_ok {A B : Type} (r : result A) (k : A -> result B) (b : B) :
  bind r k = Ok b -> exists a, r = Ok a /\ k a = Ok b.
Proof. destruct r as [a|e]; simpl; [eauto|discriminate]. Qed.

Lemma getitem_first {A : Type} (x : A) (l : list A) : getitem (x :: l) 0 = Ok x.
Proof. reflexivity. Qed.

Lemma getitem_last {A : Type} (l : list A) (x : A) :
  getitem (l ++ [x]) (-1) = Ok x.
Proof.
  unfold getitem. rewrite length_app. simpl length.
  change (-1 <? 0)%Z with true. cbv iota.
  replace (-1 + Z.of_nat (length l + 1))%Z with (Z.of_nat (length l)) by lia.
  destruct (Z.ltb_spec (Z.of_nat (length l)) 0) as [Hn|_]; [lia|].
  rewrite Nat2Z.id, list_lookup_middle by reflexivity. reflexivity.
Qed.

Lemma getitem_last_inv {A : Type} (l : list A) (x : A) :
  getitem l (-1) = Ok x -> exists init, l = init ++ [x].
Proof.
  destruct (decide (l = [])) as [->|Hl]; [discriminate|].
  apply last_is_Some in Hl. destruct Hl as [y Hy].
  apply last_Some in Hy. destruct Hy as [init ->].
  rewrite getitem_last. intros [= ->]. eauto.
Qed.

Lemma split_ends {A : Type} (l : list A) :
  (2 <= length l)%nat -> exists a mid b, l = a :: mid ++ [b].
Proof.
  destruct l as [|a l]; simpl; [lia|]. intros Hl.
  assert (Hne : l <> []) by (destruct l; simpl in *; [lia|discriminate]).
  apply last_is_Some in Hne. destruct Hne as [b Hb].
  apply last_Some in Hb. destruct Hb as [mid ->]. eauto.
Qed.

Lemma slice_middle {A : Type} (a b : A) (mid : list A) :
  slice (a :: mid ++ [b]) 1 (-1) = mid.
Proof.
  unfold slice, slice_bound. simpl length. rewrite length_app. simpl length.
  change (1 <? 0)%Z with false. change (-1 <? 0)%Z with true. cbv iota.
  replace (Z.max 0 (Z.min (Z.of_nat (S (length mid + 1))) 1)) with 1%Z by lia.
  replace (Z.max 0 (Z.min (Z.of_nat (S (length mid + 1)))
                          (-1 + Z.of_nat (S (length mid + 1)))))
    with (Z.of_nat (S (length mid))) by lia.
  replace (Z.to_nat (Z.of_nat (S (length mid)) - 1)) with (length mid) by lia.
  change (Z.to_nat 1) with 1%nat. simpl drop.
  apply take_app_length.
Qed.

Lemma is_empty_false {A : Type} (l : list A) : is_empty l = false <-> l <> [].
Proof. destruct l; simpl; split; congruence. Qed.

(** *** [sorted] *)

Lemma with_keys_inv {A : Type} (key : A -> result datetime) (l : list A)
    (kl : list (datetime * A)) :
  with_keys key l = Ok kl ->
  kl.*2 = l /\ Forall (fun p => key p.2 = Ok p.1) kl.
Proof.
  revert kl. induction l as [|x l IH]; intros kl; simpl.
  - intros [= <-]. split; [reflexivity|constructor].
  - intros H. apply bind_ok in H as (k & Hk & H).
    apply bind_ok in H as (krest & Hrest & [= <-]).
    destruct (IH _ Hrest) as [IH1 IH2]. split.
    + rewrite fmap_cons, IH1. reflexivity.
    + constructor; assumption.
Qed.

Lemma with_keys_ok {A : Type} (key : A -> result datetime) (l : list A) :
  Forall (fun x => is_ok (key x) = true) l ->
  exists kl, with_keys key l = Ok kl.
Proof.
  induction 1 as [|x l Hx _ [kl IH]]; simpl; [eauto|].
  destruct (key x) as [k|e]; [|discriminate]. simpl.
  rewrite IH. simpl. eauto.
Qed.

(** When a key raises, [with_keys] raises the error of an element. *)
Lemma with_keys_raise {A : Type} (key : A -> result datetime) (l : list A) :
  Exists (fun x => is_ok (key x) = false) l ->
  exists x e, x ∈ l /\ key x = Raise e /\ with_keys key l = Raise e.
Proof.
  induction l as [|x l IH]; intros Hex; [inversion Hex|]. simpl.
  destruct (key x) as [k|e] eqn:Hk.
  - inversion Hex as [? ? Hbad|? ? Hrest]; subst.
    { rewrite Hk in Hbad. discriminate. }
    destruct (IH Hrest) as (y & e & Hy & Hkey & Hraise).
    exists y, e. split; [right; exact Hy|]. split; [exact Hkey|].
    simpl. rewrite Hraise. reflexivity.
  - exists x, e. split; [left|]. split; [exact Hk|reflexivity].
Qed.

Lemma insert_by_key_perm {A : Type} (x : datetime * A) (l : list (datetime * A)) :
  insert_by_key x l ≡ₚ x :: l.
Proof.
  induction l as [|y l IH]; simpl; [reflexivity|].
  destruct (x.1 <=? y.1)%Z; [reflexivity|].
  rewrite IH. apply Permutation_swap.
Qed.

Lemma sort_by_key_perm {A : Type} (l : list (datetime * A)) :
  sort_by_key l ≡ₚ l.
Proof.
  induction l as [|x l IH]; simpl; [reflexivity|].
  rewrite insert_by_key_perm, IH. reflexivity.
Qed.

Lemma insert_by_key_sorted {A : Type} (x : datetime * A)
    (l : list (datetime * A)) :
  StronglySorted key_le l -> StronglySorted key_le (insert_by_key x l).
Proof.
  induction l as [|y l IH]; intros Hs; simpl.
  - repeat constructor.
  - apply StronglySorted_inv in Hs as [Hl Hy].
    destruct (Z.leb_spec x.1 y.1) as [Hle|Hgt].
    + constructor; [constructor; assumption|].
      constructor; [exact Hle|].
      eapply Forall_impl; [exact Hy|]. unfold key_le. intros; lia.
    + constructor; [apply IH; exact Hl|].
      rewrite insert_by_key_perm. constructor; [unfold key_le; lia|exact Hy].
Qed.

Lemma sort_by_key_sorted {A : Type} (l : list (datetime * A)) :
  StronglySorted key_le (sort_by_key l).
Proof.
  induction l as [|x l IH]; simpl; [constructor|].
  apply insert_by_key_sorted, IH.
Qed.

(** On a successful [sorted]: the keyed list behind the result. *)
Lemma sorted_inv {A : Type} (key : A -> result datetime) (l s : list A) :
  sorted l key = Ok s ->
  exists ks, s = ks.*2 /\ ks.*2 ≡ₚ l /\ StronglySorted key_le ks
             /\ Forall (fun p => key p.2 = Ok p.1) ks.
Proof.
  unfold sorted. intros H. apply bind_ok in H as (kl & Hkl & [= <-]).
  apply with_keys_inv in Hkl as [Hl Hkeys].
  exists (sort_by_key kl). split; [reflexivity|].
  split; [rewrite sort_by_key_perm, Hl; reflexivity|].
  split; [apply sort_by_key_sorted|].
  rewrite sort_by_key_perm. exact Hkeys.
Qed.

Lemma sorted_ok {A : Type} (key : A -> result datetime) (l : list A) :
  Forall (fun x => is_ok (key x) = true) l ->
  exists s, sorted l key = Ok s /\ s ≡ₚ l.
Proof.
  intros Hl. destruct (with_keys_ok key l Hl) as [kl Hkl].
  unfold sorted. rewrite Hkl. simpl. eexists. split; [reflexivity|].
  apply with_keys_inv in Hkl as [<- _]. rewrite sort_by_key_perm. reflexivity.
Qed.

Lemma sorted_raise {A : Type} (key : A -> result datetime) (l : list A) :
  Exists (fun x => is_ok (key x) = false) l ->
  exists x e, x ∈ l /\ key x = Raise e /\ sorted l key = Raise e.
Proof.
  intros Hex. destruct (with_keys_raise key l Hex) as (x & e & Hx & Hk & Hr).
  exists x, e. unfold sorted. rewrite Hr. auto.
Qed.

(** ** Each loop body adds its journey's updates to the ledger *)

(** Enter the part of a body that runs for an eligible journey. *)
Ltac enter_body :=
  destruct (negb (get_converted _)); [reflexivity|];
  destruct (is_empty (get_touchpoints _)); [reflexivity|].

(** Case on the next step that may raise. *)
Ltac step_body :=
  match goal with
  | |- context [bind ?r _] => destruct r; simpl; [|reflexivity]
  end.

Lemma credit_each_each_gets (share : R) (tps : list Touchpoint)
    (credits : gmap string R) :
  credit_each share tps credits = apply_credits (each_gets share tps) credits.
Proof.
  unfold credit_each, apply_credits, each_gets.
  revert credits. induction tps as [|tp tps IH]; intros credits; simpl;
    [reflexivity|apply IH].
Qed.

Lemma credit_shares_share_list (weights : list R) (total_weight revenue : R)
    (sorted_tp : list Touchpoint) (i : nat) (credits : gmap string R) :
  credit_shares weights total_weight revenue i sorted_tp credits
  = let* cs := share_list weights total_weight revenue i sorted_tp in
    Ok (apply_credits cs credits).
Proof.
  revert i credits. induction sorted_tp as [|tp rest IH]; intros i credits;
    simpl; [reflexivity|].
  destruct (getitem weights (Z.of_nat i)) as [w|e]; simpl; [|reflexivity].
  rewrite IH.
  destruct (share_list weights total_weight revenue (S i) rest); reflexivity.
Qed.

Lemma first_touch_body_credits (credits : gmap string R) (journey : Journey) :
  first_touch_body credits journey
  = let* cs := first_touch_credits journey in Ok (apply_credits cs credits).
Proof.
  unfold first_touch_body, first_touch_credits. enter_body.
  do 2 step_body. reflexivity.
Qed.

Lemma last_touch_body_credits (credits : gmap string R) (journey : Journey) :
  last_touch_body credits journey
  = let* cs := last_touch_credits journey in Ok (apply_credits cs credits).
Proof.
  unfold last_touch_body, last_touch_credits. enter_body.
  do 2 step_body. reflexivity.
Qed.

Lemma linear_body_credits (credits : gmap string R) (journey : Journey) :
  linear_body credits journey
  = let* cs := linear_credits journey in Ok (apply_credits cs credits).
Proof.
  unfold linear_body, linear_credits. enter_body.
  rewrite credit_each_each_gets. reflexivity.
Qed.

Lemma time_decay_body_credits (decay_rate : R) (credits : gmap string R)
    (journey : Journey) :
  time_decay_body decay_rate credits journey
  = let* cs := time_decay_credits decay_rate journey in
    Ok (apply_credits cs credits).
Proof.
  unfold time_decay_body, time_decay_credits.
  destruct (negb (get_converted journey)); [reflexivity|].
  destruct (is_empty (get_touchpoints journey)); [reflexivity|].
  destruct (sorted _ _) as [sorted_tp|]; simpl; [|reflexivity].
  destruct (getitem sorted_tp (-1)) as [last|]; simpl; [|reflexivity].
  destruct (parse_timestamp _) as [conversion_time|]; simpl; [|reflexivity].
  destruct (raw_weights _ _ _) as [weights|]; simpl; [|reflexivity].
  destruct (Req_dec_T _ _); [reflexivity|].
  apply credit_shares_share_list.
Qed.

Lemma position_based_body_credits (credits : gmap string R)
    (journey : Journey) :
  position_based_body credits journey
  = let* cs := position_based_credits journey in
    Ok (apply_credits cs credits).
Proof.
  unfold position_based_body, position_based_credits.
  destruct (negb (get_converted journey)); [reflexivity|].
  destruct (is_empty (get_touchpoints journey)); [reflexivity|].
  destruct (sorted _ _) as [sorted_tp|]; simpl; [|reflexivity].
  destruct (length sorted_tp =? 1)%nat.
  { destruct (getitem sorted_tp 0); reflexivity. }
  destruct (length sorted_tp =? 2)%nat.
  { destruct (getitem sorted_tp 0); simpl; [|reflexivity].
    destruct (getitem sorted_tp (-1)); reflexivity. }
  destruct (getitem sorted_tp 0); simpl; [|reflexivity].
  destruct (getitem sorted_tp (-1)); simpl; [|reflexivity].
  rewrite credit_each_each_gets. reflexivity.
Qed.

Section Loop.

Variable body : gmap string R -> Journey -> result (gmap string R).
Variable contrib : Journey -> result (list (string * R)).
Hypothesis body_contrib : forall credits journey,
  body credits journey
  = let* cs := contrib journey in Ok (apply_credits cs credits).

Lemma for_journeys_credits (journeys : list Journey) (credits : gmap string R) :
  for_journeys body journeys credits
  = let* cs := journeys_credits contrib journeys in
    Ok (apply_credits cs credits).
Proof.
  revert credits. induction journeys as [|j rest IH]; intros credits; simpl;
    [reflexivity|].
  rewrite body_contrib. destruct (contrib j) as [cs|e]; simpl; [|reflexivity].
  rewrite IH. destruct (journeys_credits contrib rest) as [more|e]; simpl;
    [|reflexivity].
  rewrite apply_credits_app. reflexivity.
Qed.

End Loop.

Lemma journeys_credits_app (contrib : Journey -> result (list (string * R)))
    (js1 js2 : list Journey) :
  journeys_credits contrib (js1 ++ js2)
  = let* cs1 := journeys_credits contrib js1 in
    let* cs2 := journeys_credits contrib js2 in
    Ok (cs1 ++ cs2).
Proof.
  induction js1 as [|j js1 IH]; simpl.
  - destruct (journeys_credits contrib js2); reflexivity.
  - destruct (contrib j) as [cs|e]; simpl; [|reflexivity].
    rewrite IH. destruct (journeys_credits contrib js1) as [cs1|e]; simpl;
      [|reflexivity].
    destruct (journeys_credits contrib js2) as [cs2|e]; simpl; [|reflexivity].
    rewrite app_assoc. reflexivity.
Qed.

Lemma models_cases (model_name : string) :
  model_name ∈ MODELS ->
  model_name = "first-touch"%string \/ model_name = "last-touch"%string
  \/ model_name = "linear"%string \/ model_name = "time-decay"%string
  \/ model_name = "position-based"%string.
Proof.
  unfold MODELS. rewrite !elem_of_cons, elem_of_nil. tauto.
Qed.

(** [run_model], for a model of [MODELS] and a half-life that the time-decay
    model can divide by, folds the updates of the journeys into the empty
    ledger. *)
Lemma run_model_credits (model_name : string) (journeys : list Journey)
    (half_life : R) :
  model_name ∈ MODELS ->
  (model_name = "time-decay"%string -> half_life <> 0) ->
  run_model model_name journeys half_life
  = let* cs := journeys_credits (model_credits model_name half_life) journeys in
    Ok (apply_credits cs ∅).
Proof.
  intros Hm Hhl. apply models_cases in Hm.
  destruct Hm as [-> | [-> | [-> | [-> | ->]]]]; unfold run_model, model_credits;
    simpl.
  - apply for_journeys_credits, first_touch_body_credits.
  - apply for_journeys_credits, last_touch_body_credits.
  - apply for_journeys_credits, linear_body_credits.
  - unfold time_decay_attribution.
    destruct (Req_dec_T half_life 0) as [H0|_]; [destruct (Hhl eq_refl H0)|].
    apply for_journeys_credits, time_decay_body_credits.
  - apply for_journeys_credits, position_based_body_credits.
Qed.

Lemma run_model_time_decay_zero (journeys : list Journey) :
  run_model "time-decay" journeys 0 = Raise ZeroDivisionError.
Proof.
  unfold run_model. simpl. unfold time_decay_attribution.
  destruct (Req_dec_T 0 0) as [_|H]; [reflexivity|destruct H; reflexivity].
Qed.

(** ** Sums and shares *)

Lemma mult_div_cancel (n x : R) : n <> 0 -> n * (x / n) = x.
Proof. intros Hn. field. exact Hn. Qed.

Lemma safe_divide_nonzero (x y : R) : y <> 0 -> safe_divide x y = x / y.
Proof.
  intros Hy. unfold safe_divide, safe_divide_default.
  destruct (Req_dec_T y 0); [contradiction|reflexivity].
Qed.

Lemma safe_divide_nonneg (x y : R) : 0 <= x -> 0 <= y -> 0 <= safe_divide x y.
Proof.
  intros Hx Hy. unfold safe_divide, safe_divide_default.
  destruct (Req_dec_T y 0) as [|Hne]; [lra|].
  apply Rmult_le_pos; [exact Hx|].
  left. apply Rinv_0_lt_compat. lra.
Qed.

Lemma sum_nonneg (l : list R) : Forall (fun x => 0 <= x) l -> 0 <= sum l.
Proof.
  induction 1 as [|x l Hx _ IH]; [change (sum []) with 0; lra|].
  rewrite sum_cons. lra.
Qed.


Lemma sum_scaled {A : Type} (f : A -> R) (c : R) (l : list A) :
  sum ((fun x => f x * c) <$> l) = sum (f <$> l) * c.
Proof.
  induction l as [|x l IH]; [change (sum []) with 0; simpl; lra|].
  rewrite !fmap_cons, !sum_cons, IH. lra.
Qed.

Lemma sum_each_gets (share : R) (tps : list Touchpoint) :
  sum ((each_gets share tps).*2) = INR (length tps) * share.
Proof.
  unfold each_gets. induction tps as [|tp tps IH].
  - change (sum _) with 0. simpl. lra.
  - rewrite !fmap_cons, sum_cons, IH. simpl fst. simpl snd.
    change (length (tp :: tps)) with (S (length tps)). rewrite S_INR. lra.
Qed.

Lemma each_gets_nonneg (share : R) (tps : list Touchpoint) :
  0 <= share -> Forall (fun c : string * R => 0 <= c.2) (each_gets share tps).
Proof.
  intros Hs. unfold each_gets. apply Forall_fmap, Forall_true. intros tp.
  exact Hs.
Qed.

(** ** The time-decay weights *)

Lemma getitem_nat {A : Type} (l : list A) (i : nat) :
  getitem l (Z.of_nat i)
  = match l !! i with Some x => Ok x | None => Raise IndexError end.
Proof.
  unfold getitem.
  destruct (Z.ltb_spec (Z.of_nat i) 0) as [Hn|_]; [lia|].
  destruct (Z.ltb_spec (Z.of_nat i) 0) as [Hn|_]; [lia|].
  rewrite Nat2Z.id. reflexivity.
Qed.

Lemma raw_weights_keyed (decay_rate : R) (conversion_time : datetime)
    (ks : list (datetime * Touchpoint)) :
  Forall (fun p => timestamp_key p.2 = Ok p.1) ks ->
  raw_weights decay_rate conversion_time (ks.*2)
  = Ok ((fun p => decay_weight decay_rate conversion_time p.1) <$> ks).
Proof.
  induction 1 as [|p ks Hp _ IH]; [reflexivity|].
  rewrite !fmap_cons. simpl. unfold timestamp_key in Hp. rewrite Hp. simpl.
  rewrite IH. reflexivity.
Qed.

Lemma raw_weights_positive (decay_rate : R) (conversion_time : datetime)
    (tps : list Touchpoint) (weights : list R) :
  raw_weights decay_rate conversion_time tps = Ok weights ->
  Forall (fun w => 0 < w) weights /\ length weights = length tps.
Proof.
  revert weights. induction tps as [|tp tps IH]; intros weights; simpl.
  - intros [= <-]. split; [constructor|reflexivity].
  - intros H. apply bind_ok in H as (t & _ & H).
    apply bind_ok in H as (ws & Hws & [= <-]).
    destruct (IH _ Hws) as [IH1 IH2]. split.
    + constructor; [apply exp_pos|exact IH1].
    + simpl. rewrite IH2. reflexivity.
Qed.

Lemma share_list_zip (pre weights : list R) (total_weight revenue : R)
    (tps : list Touchpoint) :
  length weights = length tps ->
  share_list (pre ++ weights) total_weight revenue (length pre) tps
  = Ok (zip_with (fun tp w => (channel tp, safe_divide w total_weight * revenue))
          tps weights).
Proof.
  revert pre weights. induction tps as [|tp tps IH]; intros pre weights Hlen.
  - reflexivity.
  - destruct weights as [|w weights]; [discriminate|]. simpl.
    rewrite getitem_nat, list_lookup_middle by reflexivity. simpl.
    replace (pre ++ w :: weights) with ((pre ++ [w]) ++ weights)
      by (rewrite <- app_assoc; reflexivity).
    replace (S (length pre)) with (length (pre ++ [w]))
      by (rewrite length_app; simpl; lia).
    rewrite IH by (simpl in Hlen; lia). reflexivity.
Qed.

Lemma share_list_nonneg (weights : list R) (total_weight revenue : R)
    (tps : list Touchpoint) (i : nat) (cs : list (string * R)) :
  Forall (fun w => 0 < w) weights -> 0 <= total_weight -> 0 <= revenue ->
  share_list weights total_weight revenue i tps = Ok cs ->
  Forall (fun c => 0 <= c.2) cs.
Proof.
  intros Hw Htw Hrev. revert i cs.
  induction tps as [|tp tps IH]; intros i cs; simpl.
  - intros [= <-]. constructor.
  - intros H. apply bind_ok in H as (w & Hget & H).
    apply bind_ok in H as (more & Hmore & [= <-]).
    constructor; [|eapply IH; exact Hmore]. simpl.
    rewrite getitem_nat in Hget.
    destruct (weights !! i) as [w'|] eqn:Hi; [|discriminate].
    injection Hget as ->.
    apply Rmult_le_pos; [|exact Hrev].
    apply safe_divide_nonneg; [|exact Htw].
    left. exact (proj1 (Forall_lookup _ _) Hw i w Hi).
Qed.

Lemma decay_weight_at_conversion (decay_rate : R) (t : datetime) :
  decay_weight decay_rate t t = 1.
Proof.
  unfold decay_weight. rewrite Z.sub_diag.
  replace (- decay_rate * (0 / 86400)) with 0 by (unfold Rdiv; ring).
  apply exp_0.
Qed.

Lemma decay_weight_pos (decay_rate : R) (c t : datetime) :
  0 < decay_weight decay_rate c t.
Proof. apply exp_pos. Qed.

(** The weights of a list that ends at the conversion time sum to at least
    the weight [1] of its last element. *)
Lemma sum_decay_weights_ge_1 {A : Type} (decay_rate : R) (tl : datetime)
    (init : list (datetime * A)) (x : A) :
  1 <= sum ((fun p => decay_weight decay_rate tl p.1) <$> (init ++ [(tl, x)])).
Proof.
  rewrite fmap_app, sum_app. simpl fmap. rewrite sum_cons.
  change (sum []) with 0. simpl fst. rewrite decay_weight_at_conversion.
  assert (0 <= sum ((fun p : datetime * A => decay_weight decay_rate tl p.1)
                      <$> init)).
  { apply sum_nonneg, Forall_fmap, Forall_true. intros p. simpl.
    left. apply decay_weight_pos. }
  lra.
Qed.

(** ** Eligible journeys with parseable timestamps *)

Lemma eligible_inv (journey : Journey) :
  eligible journey = true ->
  get_converted journey = true /\ is_empty (get_touchpoints journey) = false.
Proof.
  unfold eligible. intros H. apply andb_prop in H as [Hc He].
  split; [exact Hc|]. destruct (is_empty _); [discriminate|reflexivity].
Qed.

Lemma ineligible_inv (journey : Journey) :
  eligible journey = false ->
  negb (get_converted journey) = true
  \/ is_empty (get_touchpoints journey) = true.
Proof.
  unfold eligible. destruct (get_converted journey); simpl; [|auto].
  destruct (is_empty _); [auto|discriminate].
Qed.

Lemma parseable_Forall (journey : Journey) :
  parseable journey = true ->
  Forall (fun tp => is_ok (timestamp_key tp) = true) (get_touchpoints journey).
Proof.
  unfold parseable, timestamp_key.
  induction (get_touchpoints journey) as [|tp tps IH]; simpl; [constructor|].
  intros H. apply andb_prop in H as [H1 H2]. constructor; auto.
Qed.

(** The sorted touchpoints of such a journey, with their parsed times. *)
Lemma sorted_eligible (journey : Journey) :
  eligible journey = true -> parseable journey = true ->
  exists ks : list (datetime * Touchpoint),
    sorted (get_touchpoints journey) timestamp_key = Ok (ks.*2)
    /\ ks.*2 ≡ₚ get_touchpoints journey
    /\ StronglySorted key_le ks
    /\ Forall (fun p => timestamp_key p.2 = Ok p.1) ks
    /\ ks <> [].
Proof.
  intros He Hp. apply eligible_inv in He as [_ He].
  apply is_empty_false in He. apply parseable_Forall in Hp.
  destruct (sorted_ok _ _ Hp) as (s & Hs & _).
  destruct (sorted_inv _ _ _ Hs) as (ks & -> & Hperm & Hsorted & Hkeys).
  exists ks. repeat split; try assumption.
  intros ->. apply Permutation_nil_l in Hperm. auto.
Qed.

Lemma sum_shares {A : Type} (ch : A -> string) (w : A -> R) (T rev : R)
    (l : list A) :
  sum (((fun p => (ch p, w p / T * rev)) <$> l).*2) = sum (w <$> l) / T * rev.
Proof.
  induction l as [|x l IH].
  - change (sum _) with 0 at 1. change (sum (w <$> [])) with 0.
    unfold Rdiv. ring.
  - rewrite !fmap_cons, !sum_cons, IH. simpl snd. unfold Rdiv. ring.
Qed.

Lemma zip_with_keyed {A B C D : Type} (h : B -> C -> D) (f : A * B -> C)
    (ks : list (A * B)) :
  zip_with h (ks.*2) (f <$> ks) = (fun p => h p.2 (f p)) <$> ks.
Proof.
  induction ks as [|p ks IH]; [reflexivity|].
  rewrite !fmap_cons. simpl. rewrite IH. reflexivity.
Qed.

Lemma first_touch_credits_eligible (journey : Journey) :
  eligible journey = true -> parseable journey = true ->
  exists (ks : list (datetime * Touchpoint)) k first rest,
    sorted (get_touchpoints journey) timestamp_key = Ok (ks.*2)
    /\ ks = (k, first) :: rest
    /\ first_touch_credits journey
       = Ok [(channel first, get_revenue journey 1)].
Proof.
  intros He Hp.
  destruct (sorted_eligible _ He Hp) as (ks & Hs & _ & _ & _ & Hne).
  apply eligible_inv in He as [Hc Hn].
  destruct ks as [|[k first] rest]; [congruence|].
  exists ((k, first) :: rest), k, first, rest.
  split; [exact Hs|]. split; [reflexivity|].
  unfold first_touch_credits. rewrite Hc, Hn, Hs. reflexivity.
Qed.

Lemma last_touch_credits_eligible (journey : Journey) :
  eligible journey = true -> parseable journey = true ->
  exists (ks : list (datetime * Touchpoint)) init k last,
    sorted (get_touchpoints journey) timestamp_key = Ok (ks.*2)
    /\ ks = init ++ [(k, last)]
    /\ last_touch_credits journey
       = Ok [(channel last, get_revenue journey 1)].
Proof.
  intros He Hp.
  destruct (sorted_eligible _ He Hp) as (ks & Hs & _ & _ & _ & Hne).
  apply eligible_inv in He as [Hc Hn].
  apply last_is_Some in Hne as [[k last] Hl].
  apply last_Some in Hl as [init ->].
  exists (init ++ [(k, last)]), init, k, last.
  split; [exact Hs|]. split; [reflexivity|].
  unfold last_touch_credits. rewrite Hc, Hn, Hs. simpl.
  rewrite fmap_app. simpl. rewrite getitem_last. reflexivity.
Qed.

Lemma linear_credits_eligible (journey : Journey) :
  eligible journey = true ->
  linear_credits journey
  = Ok (each_gets (get_revenue journey 1
                   / INR (length (get_touchpoints journey)))
          (get_touchpoints journey)).
Proof.
  intros He. apply eligible_inv in He as [Hc Hn].
  unfold linear_credits. rewrite Hc, Hn. simpl.
  rewrite safe_divide_nonzero; [reflexivity|].
  apply is_empty_false in Hn. apply not_0_INR.
  destruct (get_touchpoints journey); simpl; congruence.
Qed.

Lemma time_decay_credits_eligible (decay_rate : R) (journey : Journey) :
  eligible journey = true -> parseable journey = true ->
  exists (ks : list (datetime * Touchpoint)) init tl last,
    sorted (get_touchpoints journey) timestamp_key = Ok (ks.*2)
    /\ ks = init ++ [(tl, last)]
    /\ ks.*2 ≡ₚ get_touchpoints journey
    /\ StronglySorted key_le ks
    /\ Forall (fun p => timestamp_key p.2 = Ok p.1) ks
    /\ raw_weights decay_rate tl (ks.*2)
       = Ok ((fun p => decay_weight decay_rate tl p.1) <$> ks)
    /\ time_decay_credits decay_rate journey
       = Ok ((fun p =>
                (channel p.2,
                 decay_weight decay_rate tl p.1
                 / sum ((fun q => decay_weight decay_rate tl q.1) <$> ks)
                 * get_revenue journey 1)) <$> ks).
Proof.
  intros He Hp.
  destruct (sorted_eligible _ He Hp) as (ks & Hs & Hperm & Hsorted & Hkeys & Hne).
  apply eligible_inv in He as [Hc Hn].
  apply last_is_Some in Hne as [[tl last] Hl].
  apply last_Some in Hl as [init ->].
  pose proof (raw_weights_keyed decay_rate tl _ Hkeys) as Hraw.
  pose proof (sum_decay_weights_ge_1 decay_rate tl init last) as Hsum.
  exists (init ++ [(tl, last)]), init, tl, last.
  repeat (split; [first [assumption | reflexivity]|]).
  unfold time_decay_credits. rewrite Hc, Hn, Hs. simpl.
  assert (Hlast : getitem ((init ++ [(tl, last)]).*2) (-1) = Ok last).
  { rewrite fmap_app. simpl. apply getitem_last. }
  rewrite Hlast. simpl.
  assert (Hconv : parse_timestamp (timestamp last) = Ok tl).
  { apply Forall_app in Hkeys as [_ Hk]. inversion Hk; subst. assumption. }
  rewrite Hconv. simpl. rewrite Hraw. simpl.
  destruct (Req_dec_T _ 0) as [H0|Hne0]; [lra|].
  rewrite <- (app_nil_l (_ <$> _)) at 1.
  change 0%nat with (length (@nil R)).
  rewrite share_list_zip by (rewrite !length_fmap; reflexivity).
  rewrite zip_with_keyed. f_equal. apply list_fmap_ext. intros _ p _.
  rewrite safe_divide_nonzero by exact Hne0. reflexivity.
Qed.

Lemma position_cases {A : Type} (s : list A) :
  s <> [] ->
  (exists a, s = [a]) \/ (exists a b, s = [a; b])
  \/ (exists a mid b, mid <> [] /\ s = a :: mid ++ [b]).
Proof.
  intros Hs. destruct s as [|a [|b s]]; [congruence|eauto|].
  right. destruct (split_ends (a :: b :: s)) as (a' & mid & c & Heq);
    [simpl; lia|].
  injection Heq as <- Heq. destruct mid as [|m mid].
  - left. exists a, c. rewrite Heq. reflexivity.
  - right. exists a, (m :: mid), c. split; [discriminate|].
    rewrite Heq. reflexivity.
Qed.

Lemma middle_count_INR {A : Type} (a b : A) (mid : list A) :
  IZR (Z.of_nat (length (a :: mid ++ [b])) - 2) = INR (length mid).
Proof.
  rewrite INR_IZR_INZ. f_equal. simpl length. rewrite length_app. simpl. lia.
Qed.

Lemma position_based_credits_sorted (journey : Journey)
    (s : list Touchpoint) :
  eligible journey = true ->
  sorted (get_touchpoints journey) timestamp_key = Ok s ->
  let revenue := get_revenue journey 1 in
  (forall a, s = [a] ->
     position_based_credits journey = Ok [(channel a, revenue)])
  /\ (forall a b, s = [a; b] ->
        position_based_credits journey
        = Ok [(channel a, revenue * 0.5); (channel b, revenue * 0.5)])
  /\ (forall a mid b, mid <> [] -> s = a :: mid ++ [b] ->
        position_based_credits journey
        = Ok ((channel a, revenue * 0.4) :: (channel b, revenue * 0.4)
              :: each_gets (revenue * 0.2 / INR (length mid)) mid)).
Proof.
  intros He Hs revenue. apply eligible_inv in He as [Hc Hn].
  unfold position_based_credits. rewrite Hc, Hn, Hs. simpl.
  split; [|split].
  - intros a ->. reflexivity.
  - intros a b ->. reflexivity.
  - intros a mid b Hmid ->.
    assert (Hlen : length (a :: mid ++ [b]) = S (S (length mid)))
      by (simpl; rewrite length_app; simpl; lia).
    assert (Hm : (0 < length mid)%nat)
      by (destruct mid; [congruence|simpl; lia]).
    destruct (Nat.eqb_spec (length (a :: mid ++ [b])) 1) as [H1|_]; [lia|].
    destruct (Nat.eqb_spec (length (a :: mid ++ [b])) 2) as [H2|_]; [lia|].
    rewrite getitem_first. simpl bind.
    change (a :: mid ++ [b]) with ((a :: mid) ++ [b]) at 1.
    rewrite getitem_last. simpl bind.
    rewrite slice_middle.
    change (S (length (mid ++ [b]))) with (length (a :: mid ++ [b])).
    rewrite middle_count_INR.
    rewrite safe_divide_nonzero; [reflexivity|].
    apply not_0_INR. lia.
Qed.

Lemma position_based_credits_conserve (journey : Journey) :
  eligible journey = true -> parseable journey = true ->
  exists cs, position_based_credits journey = Ok cs
             /\ sum (cs.*2) = get_revenue journey 1.
Proof.
  intros He Hp.
  destruct (sorted_eligible _ He Hp) as (ks & Hs & _ & _ & _ & Hne).
  destruct (position_based_credits_sorted _ _ He Hs) as (H1 & H2 & H3).
  assert (Hs_ne : ks.*2 <> []) by (destruct ks; [congruence|discriminate]).
  destruct (position_cases _ Hs_ne)
    as [(a & Ha)|[(a & b & Hab)|(a & mid & b & Hmid & Hamb)]].
  - eexists. split; [apply (H1 a Ha)|].
    unfold sum. simpl. lra.
  - eexists. split; [apply (H2 a b Hab)|].
    unfold sum. simpl. lra.
  - eexists. split; [apply (H3 a mid b Hmid Hamb)|].
    rewrite !fmap_cons, !sum_cons, sum_each_gets. simpl snd.
    assert (INR (length mid) <> 0)
      by (apply not_0_INR; destruct mid; [congruence|discriminate]).
    rewrite mult_div_cancel by assumption. lra.
Qed.

Lemma getitem_ok_length {A : Type} (l : list A) (x : A) :
  getitem l 0 = Ok x -> (1 <= length l)%nat.
Proof. destruct l; [discriminate|simpl; lia]. Qed.

(** Close a goal on an explicit list of non-negative updates. *)
Ltac nonneg_list :=
  repeat (apply Forall_cons_2; [simpl; lra|]); apply Forall_nil_2.

Lemma position_based_credits_nonneg (journey : Journey)
    (cs : list (string * R)) :
  0 <= get_revenue journey 1 ->
  position_based_credits journey = Ok cs ->
  Forall (fun c => 0 <= c.2) cs.
Proof.
  intros Hrev. unfold position_based_credits.
  destruct (negb (get_converted journey)); [intros [= <-]; constructor|].
  destruct (is_empty (get_touchpoints journey)); [intros [= <-]; constructor|].
  intros H. apply bind_ok in H as (s & _ & H).
  destruct (Nat.eqb_spec (length s) 1) as [H1|H1].
  { apply bind_ok in H as (a & _ & [= <-]). nonneg_list. }
  destruct (Nat.eqb_spec (length s) 2) as [H2|H2].
  { apply bind_ok in H as (a & _ & H). apply bind_ok in H as (b & _ & [= <-]).
    nonneg_list. }
  apply bind_ok in H as (a & Ha & H). apply bind_ok in H as (b & _ & [= <-]).
  apply getitem_ok_length in Ha.
  constructor; [simpl; lra|]. constructor; [simpl; lra|].
  apply each_gets_nonneg, safe_divide_nonneg; [lra|].
  apply IZR_le. lia.
Qed.

Lemma time_decay_credits_nonneg (decay_rate : R) (journey : Journey)
    (cs : list (string * R)) :
  0 <= get_revenue journey 1 ->
  time_decay_credits decay_rate journey = Ok cs ->
  Forall (fun c => 0 <= c.2) cs.
Proof.
  intros Hrev. unfold time_decay_credits.
  destruct (negb (get_converted journey)); [intros [= <-]; constructor|].
  destruct (is_empty (get_touchpoints journey)); [intros [= <-]; constructor|].
  intros H. apply bind_ok in H as (s & _ & H).
  apply bind_ok in H as (last & _ & H).
  apply bind_ok in H as (conv & _ & H).
  apply bind_ok in H as (weights & Hw & H).
  destruct (Req_dec_T (sum weights) 0); [injection H as <-; constructor|].
  apply raw_weights_positive in Hw as [Hpos _].
  eapply share_list_nonneg; [exact Hpos| |exact Hrev|exact H].
  apply sum_nonneg. eapply Forall_impl; [exact Hpos|]. simpl. intros; lra.
Qed.

Lemma first_touch_credits_nonneg (journey : Journey) (cs : list (string * R)) :
  0 <= get_revenue journey 1 ->
  first_touch_credits journey = Ok cs -> Forall (fun c => 0 <= c.2) cs.
Proof.
  intros Hrev. unfold first_touch_credits.
  destruct (negb (get_converted journey)); [intros [= <-]; constructor|].
  destruct (is_empty (get_touchpoints journey)); [intros [= <-]; constructor|].
  intros H. apply bind_ok in H as (s & _ & H).
  apply bind_ok in H as (a & _ & [= <-]). nonneg_list.
Qed.

Lemma last_touch_credits_nonneg (journey : Journey) (cs : list (string * R)) :
  0 <= get_revenue journey 1 ->
  last_touch_credits journey = Ok cs -> Forall (fun c => 0 <= c.2) cs.
Proof.
  intros Hrev. unfold last_touch_credits.
  destruct (negb (get_converted journey)); [intros [= <-]; constructor|].
  destruct (is_empty (get_touchpoints journey)); [intros [= <-]; constructor|].
  intros H. apply bind_ok in H as (s & _ & H).
  apply bind_ok in H as (a & _ & [= <-]). nonneg_list.
Qed.

Lemma linear_credits_nonneg (journey : Journey) (cs : list (string * R)) :
  0 <= get_revenue journey 1 ->
  linear_credits journey = Ok cs -> Forall (fun c => 0 <= c.2) cs.
Proof.
  intros Hrev. unfold linear_credits.
  destruct (negb (get_converted journey)); [intros [= <-]; constructor|].
  destruct (is_empty (get_touchpoints journey)); [intros [= <-]; constructor|].
  intros [= <-]. apply each_gets_nonneg, safe_divide_nonneg; [exact Hrev|].
  apply pos_INR.
Qed.

(** ** Failing timestamps *)

Lemma parse_timestamp_raise (ts : string) (e : exception) :
  parse_timestamp ts = Raise e -> e = parse_error ts.
Proof.
  unfold parse_timestamp, parse_error. simpl.
  repeat (destruct (strptime ts _); [discriminate|]).
  intros [= <-]. reflexivity.
Qed.

Lemma unparseable_Exists (journey : Journey) :
  parseable journey = false ->
  Exists (fun tp => is_ok (timestamp_key tp) = false) (get_touchpoints journey).
Proof.
  unfold parseable, timestamp_key.
  induction (get_touchpoints journey) as [|tp tps IH]; simpl; [discriminate|].
  destruct (is_ok (parse_timestamp (timestamp tp))) eqn:Htp; simpl.
  - intros H. right. exact (IH H).
  - intros _. left. exact Htp.
Qed.

(** [sorted] on the touchpoints of a journey with a bad timestamp. *)
Lemma sorted_unparseable (journey : Journey) :
  parseable journey = false ->
  exists tp, tp ∈ get_touchpoints journey
    /\ is_ok (parse_timestamp (timestamp tp)) = false
    /\ sorted (get_touchpoints journey) timestamp_key
       = Raise (parse_error (timestamp tp)).
Proof.
  intros Hp. apply unparseable_Exists in Hp.
  destruct (sorted_raise _ _ Hp) as (tp & e & Htp & Hkey & Hraise).
  exists tp. split; [exact Htp|].
  unfold timestamp_key in Hkey. rewrite Hkey. split; [reflexivity|].
  rewrite Hraise. f_equal. apply parse_timestamp_raise. exact Hkey.
Qed.

(** ** What the model of [run_model] does with one journey *)

Lemma model_credits_ineligible (model_name : string) (half_life : R)
    (journey : Journey) :
  eligible journey = false ->
  model_credits model_name half_life journey = Ok [].
Proof.
  intros He. apply ineligible_inv in He.
  unfold model_credits.
  repeat match goal with
         | |- context [String.eqb ?a ?b] => destruct (String.eqb a b)
         end;
    unfold first_touch_credits, last_touch_credits, linear_credits,
      time_decay_credits, position_based_credits;
    (destruct He as [He|He]; rewrite He;
     [reflexivity|destruct (negb (get_converted journey)); reflexivity]).
Qed.

Lemma model_credits_conserve (model_name : string) (half_life : R)
    (journey : Journey) :
  model_name ∈ MODELS ->
  eligible journey = true -> parseable journey = true ->
  exists cs, model_credits model_name half_life journey = Ok cs
             /\ sum (cs.*2) = get_revenue journey 1.
Proof.
  intros Hm He Hp. apply models_cases in Hm.
  destruct Hm as [-> | [-> | [-> | [-> | ->]]]]; unfold model_credits; simpl.
  - destruct (first_touch_credits_eligible _ He Hp)
      as (ks & k & a & rest & _ & _ & ->).
    eexists. split; [reflexivity|]. unfold sum. simpl. lra.
  - destruct (last_touch_credits_eligible _ He Hp)
      as (ks & init & k & a & _ & _ & ->).
    eexists. split; [reflexivity|]. unfold sum. simpl. lra.
  - rewrite (linear_credits_eligible _ He).
    eexists. split; [reflexivity|]. rewrite sum_each_gets.
    apply mult_div_cancel, not_0_INR.
    apply eligible_inv in He as [_ Hn]. apply is_empty_false in Hn.
    destruct (get_touchpoints journey); simpl; congruence.
  - destruct (time_decay_credits_eligible (ln 2 / half_life) _ He Hp)
      as (ks & init & tl & a & _ & Hks & _ & _ & _ & _ & ->).
    eexists. split; [reflexivity|].
    rewrite (sum_shares (fun p => channel p.2)
               (fun p => decay_weight (ln 2 / half_life) tl p.1)).
    pose proof (sum_decay_weights_ge_1 (ln 2 / half_life) tl init a) as Hge.
    rewrite <- Hks in Hge. field. lra.
  - apply position_based_credits_conserve; assumption.
Qed.

Lemma model_credits_ok (model_name : string) (half_life : R)
    (journey : Journey) :
  model_name ∈ MODELS -> parseable journey = true ->
  is_ok (model_credits model_name half_life journey) = true.
Proof.
  intros Hm Hp. destruct (eligible journey) eqn:He.
  - destruct (model_credits_conserve _ half_life _ Hm He Hp) as (cs & -> & _).
    reflexivity.
  - rewrite model_credits_ineligible by exact He. reflexivity.
Qed.

Lemma model_credits_nonneg (model_name : string) (half_life : R)
    (journey : Journey) (cs : list (string * R)) :
  model_name ∈ MODELS ->
  0 <= get_revenue journey 1 ->
  model_credits model_name half_life journey = Ok cs ->
  Forall (fun c => 0 <= c.2) cs.
Proof.
  intros Hm Hrev. apply models_cases in Hm.
  destruct Hm as [-> | [-> | [-> | [-> | ->]]]]; unfold model_credits; simpl.
  - apply first_touch_credits_nonneg, Hrev.
  - apply last_touch_credits_nonneg, Hrev.
  - apply linear_credits_nonneg, Hrev.
  - apply time_decay_credits_nonneg, Hrev.
  - apply position_based_credits_nonneg, Hrev.
Qed.

(** The four models that sort raise the parse error of a touchpoint. *)
Lemma model_credits_unparseable (model_name : string) (half_life : R)
    (journey : Journey) :
  model_name ∈ MODELS -> model_name <> "linear"%string ->
  eligible journey = true -> parseable journey = false ->
  exists tp, tp ∈ get_touchpoints journey
    /\ is_ok (parse_timestamp (timestamp tp)) = false
    /\ model_credits model_name half_life journey
       = Raise (parse_error (timestamp tp)).
Proof.
  intros Hm Hlin He Hp. apply eligible_inv in He as [Hc Hn].
  destruct (sorted_unparseable _ Hp) as (tp & Htp & Hbad & Hs).
  exists tp. split; [exact Htp|]. split; [exact Hbad|].
  apply models_cases in Hm.
  destruct Hm as [-> | [-> | [-> | [-> | ->]]]]; try congruence;
    unfold model_credits; simpl;
    unfold first_touch_credits, last_touch_credits, time_decay_credits,
      position_based_credits;
    rewrite Hc, Hn, Hs; reflexivity.
Qed.

(** ** Journey lists *)

Lemma journeys_credits_ok (contrib : Journey -> result (list (string * R)))
    (journeys : list Journey) :
  Forall (fun j => is_ok (contrib j) = true) journeys ->
  exists cs, journeys_credits contrib journeys = Ok cs.
Proof.
  induction 1 as [|j js Hj _ [cs IH]]; simpl; [eauto|].
  destruct (contrib j) as [c|]; [|discriminate]. simpl.
  rewrite IH. simpl. eauto.
Qed.

Lemma journeys_credits_perm (contrib : Journey -> result (list (string * R)))
    (js js' : list Journey) :
  js ≡ₚ js' ->
  Forall (fun j => is_ok (contrib j) = true) js ->
  exists cs cs', journeys_credits contrib js = Ok cs
    /\ journeys_credits contrib js' = Ok cs' /\ cs ≡ₚ cs'.
Proof.
  induction 1 as [|j js js' Hperm IH|j1 j2 js|js1 js2 js3 H12 IH1 H23 IH2];
    intros Hok.
  - exists [], []. auto.
  - apply Forall_cons in Hok as [Hj Hok].
    destruct (IH Hok) as (cs & cs' & H1 & H2 & Hp).
    simpl. destruct (contrib j) as [c|]; [|discriminate]. simpl.
    rewrite H1, H2. simpl. exists (c ++ cs), (c ++ cs').
    split; [reflexivity|]. split; [reflexivity|]. rewrite Hp. reflexivity.
  - apply Forall_cons in Hok as [Hj1 Hok].
    apply Forall_cons in Hok as [Hj2 Hok].
    destruct (journeys_credits_ok _ _ Hok) as [cs Hcs].
    simpl. destruct (contrib j1) as [c1|]; [|discriminate].
    destruct (contrib j2) as [c2|]; [|discriminate]. simpl.
    rewrite Hcs. simpl. exists (c2 ++ c1 ++ cs), (c1 ++ c2 ++ cs).
    split; [reflexivity|]. split; [reflexivity|].
    rewrite !app_assoc. apply Permutation_app_tail, Permutation_app_comm.
  - destruct (IH1 Hok) as (cs1 & cs2 & H1 & H2 & Hp12).
    assert (Hok2 : Forall (fun j => is_ok (contrib j) = true) js2)
      by (rewrite <- H12; exact Hok).
    destruct (IH2 Hok2) as (cs2' & cs3 & H2' & H3 & Hp23).
    rewrite H2 in H2'. injection H2' as <-.
    exists cs1, cs3. split; [exact H1|]. split; [exact H3|].
    rewrite Hp12. exact Hp23.
Qed.


Lemma journeys_credits_Forall (contrib : Journey -> result (list (string * R)))
    (P : string * R -> Prop) (journeys : list Journey)
    (all : list (string * R)) :
  (forall j cs, j ∈ journeys -> contrib j = Ok cs -> Forall P cs) ->
  journeys_credits contrib journeys = Ok all -> Forall P all.
Proof.
  revert all. induction journeys as [|j js IH]; intros all Hall; simpl.
  - intros [= <-]. constructor.
  - intros H. apply bind_ok in H as (cs & Hcs & H).
    apply bind_ok in H as (more & Hmore & [= <-]).
    apply Forall_app. split.
    + apply (Hall j cs); [left|exact Hcs].
    + apply IH; [|exact Hmore]. intros j' cs' Hin. apply Hall. right. exact Hin.
Qed.

(** Appending a journey to a run that succeeded applies its updates. *)
Lemma run_model_snoc (model_name : string) (half_life : R)
    (journeys : list Journey) (journey : Journey)
    (credits : gmap string R) (cs : list (string * R)) :
  model_name ∈ MODELS ->
  (model_name = "time-decay"%string -> half_life <> 0) ->
  run_model model_name journeys half_life = Ok credits ->
  model_credits model_name half_life journey = Ok cs ->
  run_model model_name (journeys ++ [journey]) half_life
  = Ok (apply_credits cs credits).
Proof.
  intros Hm Hhl Hrun Hcs.
  rewrite run_model_credits in Hrun |- * by assumption.
  rewrite journeys_credits_app.
  destruct (journeys_credits _ journeys) as [all|]; [|discriminate].
  simpl in Hrun |- *. injection Hrun as <-.
  rewrite Hcs. simpl. rewrite app_nil_r, apply_credits_app. reflexivity.
Qed.

(** ** The properties of the specification *)

(** C1 (credit conservation).  For each of the five models (time-decay with
    a positive half-life), a converted journey with a non-empty touchpoint
    list and parseable timestamps, appended to a journey list whose run
    returned the ledger [credits], makes the run return a ledger whose total
    over all channels is larger by exactly the journey's revenue (1 when the
    field is absent).  With the empty list before it, the total of the
    returned ledger is the revenue. *)
Theorem credit_conservation (model_name : string) (half_life : R)
    (journeys : list Journey) (journey : Journey) (credits : gmap string R) :
  model_name ∈ MODELS ->
  (model_name = "time-decay"%string -> 0 < half_life) ->
  eligible journey = true ->
  parseable journey = true ->
  run_model model_name journeys half_life = Ok credits ->
  exists credits',
    run_model model_name (journeys ++ [journey]) half_life = Ok credits'
    /\ ledger_total credits' = ledger_total credits + get_revenue journey 1.
Proof.
  intros Hm Hhl He Hp Hrun.
  destruct (model_credits_conserve _ half_life _ Hm He Hp) as (cs & Hcs & Hsum).
  exists (apply_credits cs credits). split.
  - apply run_model_snoc; try assumption. intros Htd. specialize (Hhl Htd). lra.
  - rewrite ledger_total_apply_credits, Hsum. reflexivity.
Qed.

(** C7 (journey-order independence), in exact arithmetic.  For each of the
    five models, a journey list whose timestamps all parse and any
    permutation of it give the same result: the same ledger, key for key.
    The credits of a channel are summed in the order of the journeys, and
    the sum of real numbers does not depend on the order; the sum of floats
    does, as the part [Binary64] shows. *)
Theorem journey_order_independence (model_name : string) (half_life : R)
    (journeys journeys' : list Journey) :
  model_name ∈ MODELS ->
  Forall (fun j => parseable j = true) journeys ->
  journeys ≡ₚ journeys' ->
  run_model model_name journeys' half_life
  = run_model model_name journeys half_life.
Proof.
  intros Hm Hp Hperm.
  destruct (decide (model_name = "time-decay"%string)) as [Htd|Hntd];
    [destruct (Req_dec_T half_life 0) as [H0|Hn0]|].
  - subst. rewrite !run_model_time_decay_zero. reflexivity.
  - rewrite !run_model_credits by auto.
    destruct (journeys_credits_perm (model_credits model_name half_life)
                _ _ Hperm) as (cs & cs' & -> & -> & Hcs).
    { eapply Forall_impl; [exact Hp|]. intros j Hj.
      apply model_credits_ok; assumption. }
    simpl. f_equal. symmetry. apply apply_credits_perm, Hcs.
  - rewrite !run_model_credits by (auto || intros; contradiction).
    destruct (journeys_credits_perm (model_credits model_name half_life)
                _ _ Hperm) as (cs & cs' & -> & -> & Hcs).
    { eapply Forall_impl; [exact Hp|]. intros j Hj.
      apply model_credits_ok; assumption. }
    simpl. f_equal. symmetry. apply apply_credits_perm, Hcs.
Qed.

(** X21 (non-negative ledger, in exact arithmetic).  With floats read as
    real numbers: for each of the five models, when every journey's revenue
    (1 when absent) is non-negative and, for time-decay, the half-life is
    positive, no credit of the returned ledger is negative.  In binary64 a
    positive half-life so small that the decay rate overflows gives a NaN
    credit, as the part [Binary64] shows. *)
Theorem ledger_non_negative (model_name : string) (half_life : R)
    (journeys : list Journey) (credits : gmap string R) :
  model_name ∈ MODELS ->
  (forall j, j ∈ journeys -> 0 <= get_revenue j 1) ->
  (model_name = "time-decay"%string -> 0 < half_life) ->
  run_model model_name journeys half_life = Ok credits ->
  forall (ch : string) (v : R), credits !! ch = Some v -> 0 <= v.
Proof.
  intros Hm Hrev Hhl Hrun.
  rewrite run_model_credits in Hrun
    by (auto; intros Htd; specialize (Hhl Htd); lra).
  apply bind_ok in Hrun as (all & Hall & [= <-]).
  assert (Hnn : ledger_nonneg (apply_credits all ∅)).
  { apply ledger_nonneg_apply_credits; [|apply map_Forall_empty].
    eapply journeys_credits_Forall; [|exact Hall].
    intros j cs Hj Hcs. eapply model_credits_nonneg; eauto. }
  intros ch v Hv. exact (Hnn ch v Hv).
Qed.



Lemma journeys_credits_skip (contrib : Journey -> result (list (string * R)))
    (js1 js2 : list Journey) (journey : Journey) :
  contrib journey = Ok [] ->
  journeys_credits contrib (js1 ++ journey :: js2)
  = journeys_credits contrib (js1 ++ js2).
Proof.
  intros Hj. rewrite !journeys_credits_app. simpl. rewrite Hj. simpl.
  destruct (journeys_credits contrib js1); simpl; [|reflexivity].
  destruct (journeys_credits contrib js2); reflexivity.
Qed.

Lemma elem_of_channels_fold (tps : list Touchpoint) (acc : gset string)
    (ch : string) :
  ch ∈ foldl (fun acc tp => acc ∪ {[channel tp]}) acc tps
  <-> ch ∈ acc \/ exists tp, tp ∈ tps /\ channel tp = ch.
Proof.
  revert acc. induction tps as [|tp tps IH]; intros acc; simpl.
  - split; [auto|]. intros [H|(tp & Htp & _)]; [exact H|].
    apply elem_of_nil in Htp. destruct Htp.
  - rewrite IH, elem_of_union, elem_of_singleton. split.
    + intros [[H| ->]|(tp' & Htp' & Hch)]; [auto| |].
      * right. exists tp. split; [left|reflexivity].
      * right. exists tp'. split; [right; exact Htp'|exact Hch].
    + intros [H|(tp' & Htp' & Hch)]; [auto|].
      apply elem_of_cons in Htp' as [->|Htp']; [auto|].
      right. exists tp'. auto.
Qed.

Lemma elem_of_journeys_fold (journeys : list Journey) (acc : gset string)
    (ch : string) :
  ch ∈ foldl (fun acc j =>
                foldl (fun acc tp => acc ∪ {[channel tp]}) acc
                      (get_touchpoints j)) acc journeys
  <-> ch ∈ acc
      \/ exists j tp, j ∈ journeys /\ tp ∈ get_touchpoints j /\ channel tp = ch.
Proof.
  revert acc. induction journeys as [|j js IH]; intros acc; simpl.
  - split; [auto|]. intros [H|(j & tp & Hj & _)]; [exact H|].
    apply elem_of_nil in Hj. destruct Hj.
  - rewrite IH, elem_of_channels_fold. split.
    + intros [[H|(tp & Htp & Hch)]|(j' & tp & Hj' & Htp & Hch)]; [auto| |].
      * right. exists j, tp. split; [left|auto].
      * right. exists j', tp. split; [right; exact Hj'|auto].
    + intros [H|(j' & tp & Hj' & Htp & Hch)]; [auto|].
      apply elem_of_cons in Hj' as [->|Hj'].
      * left. right. exists tp. auto.
      * right. exists j', tp. auto.
Qed.

(** The observed channels are those of all touchpoints of all journeys. *)
Lemma elem_of_channels_observed (journeys : list Journey) (ch : string) :
  ch ∈ channels_observed (compute_summary journeys)
  <-> exists j tp, j ∈ journeys /\ tp ∈ get_touchpoints j /\ channel tp = ch.
Proof.
  simpl. rewrite merge_sort_Permutation, elem_of_elements.
  unfold summary_all_channels. rewrite elem_of_journeys_fold.
  split; [|auto]. intros [H|H]; [|exact H].
  apply elem_of_empty in H. destruct H.
Qed.

(** C8 (ineligible journeys).  A journey that is not converted or has no
    touchpoint leaves the result of each of the five models as it is without
    the journey; the summary counts it in [total_journeys], and the channel of
    each of its touchpoints is in [channels_observed]. *)
Theorem ineligible_journey_policy (model_name : string) (half_life : R)
    (js1 js2 : list Journey) (journey : Journey) :
  model_name ∈ MODELS ->
  get_converted journey = false \/ get_touchpoints journey = [] ->
  run_model model_name (js1 ++ journey :: js2) half_life
  = run_model model_name (js1 ++ js2) half_life
  /\ total_journeys (compute_summary (js1 ++ journey :: js2))
     = S (total_journeys (compute_summary (js1 ++ js2)))
  /\ forall tp, tp ∈ get_touchpoints journey ->
       channel tp ∈ channels_observed (compute_summary (js1 ++ journey :: js2)).
Proof.
  intros Hm Hin.
  assert (He : eligible journey = false).
  { unfold eligible. destruct Hin as [-> | ->]; [reflexivity|].
    apply andb_false_r. }
  split; [|split].
  - destruct (decide (model_name = "time-decay"%string)) as [Htd|Hntd];
      [destruct (Req_dec_T half_life 0) as [H0|Hn0]|].
    + subst. rewrite !run_model_time_decay_zero. reflexivity.
    + rewrite !run_model_credits by auto.
      rewrite journeys_credits_skip; [reflexivity|].
      apply model_credits_ineligible, He.
    + rewrite !run_model_credits by (auto || intros; contradiction).
      rewrite journeys_credits_skip; [reflexivity|].
      apply model_credits_ineligible, He.
  - simpl. rewrite !length_app. simpl. lia.
  - intros tp Htp. apply elem_of_channels_observed.
    exists journey, tp. split; [|auto].
    apply elem_of_app. right. left.
Qed.

Lemma keyed_sorted_chronological (ks : list (datetime * Touchpoint)) :
  StronglySorted key_le ks ->
  Forall (fun p => timestamp_key p.2 = Ok p.1) ks ->
  StronglySorted chronological (ks.*2).
Proof.
  induction 1 as [|p ks Hs IH Hall]; intros Hkeys; [constructor|].
  apply Forall_cons in Hkeys as [Hp Hkeys].
  rewrite fmap_cons. constructor; [apply IH; exact Hkeys|].
  apply Forall_fmap. apply Forall_forall. intros q Hq. simpl.
  exists p.1, q.1. split; [exact Hp|]. split.
  - exact (proj1 (Forall_forall _ _) Hkeys q Hq).
  - exact (proj1 (Forall_forall _ _) Hall q Hq).
Qed.


(** X20 (the total weight is positive, in exact arithmetic).  With floats
    read as real numbers: in the time-decay model, for a converted journey
    with a non-empty, parseable touchpoint list and a positive half-life, the
    weights are computed without error, the weight of the latest touchpoint
    being [exp 0 = 1]; their sum is at least [1], so the branch that skips
    the journey on a zero sum is not taken: the loop body continues into the
    loop that credits the shares.  In binary64 a positive half-life so small
    that the decay rate overflows gives a NaN total, as the part [Binary64]
    shows. *)
Theorem time_decay_total_weight_positive (half_life : R) (journey : Journey) :
  0 < half_life ->
  eligible journey = true ->
  parseable journey = true ->
  exists s last conversion_time weights,
    sorted (get_touchpoints journey) timestamp_key = Ok s
    /\ getitem s (-1) = Ok last
    /\ parse_timestamp (timestamp last) = Ok conversion_time
    /\ raw_weights (ln 2 / half_life) conversion_time s = Ok weights
    /\ 1 <= sum weights
    /\ forall credits,
         time_decay_body (ln 2 / half_life) credits journey
         = credit_shares weights (sum weights) (get_revenue journey 1) 0 s
             credits.
Proof.
  intros _ He Hp.
  destruct (time_decay_credits_eligible (ln 2 / half_life) _ He Hp)
    as (ks & init & tl & last & Hs & Hks & _ & _ & Hkeys & Hraw & _).
  apply eligible_inv in He as [Hc Hn].
  assert (Hlast : getitem (ks.*2) (-1) = Ok last).
  { rewrite Hks, fmap_app. simpl. apply getitem_last. }
  assert (Hconv : parse_timestamp (timestamp last) = Ok tl).
  { rewrite Hks in Hkeys. apply Forall_app in Hkeys as [_ Hk].
    inversion Hk; subst. assumption. }
  assert (Hsum : 1 <= sum ((fun p => decay_weight (ln 2 / half_life) tl p.1)
                             <$> ks)).
  { rewrite Hks. apply sum_decay_weights_ge_1. }
  exists (ks.*2), last, tl, ((fun p => decay_weight (ln 2 / half_life) tl p.1) <$> ks).
  repeat (split; [assumption|]).
  intros credits. unfold time_decay_body.
  rewrite Hc, Hn, Hs. simpl. rewrite Hlast. simpl. rewrite Hconv. simpl.
  rewrite Hraw. simpl.
  destruct (Req_dec_T _ 0) as [H0|_]; [lra|reflexivity].
Qed.



(** ** Further properties of the analyzer *)

Lemma first_touch_in_MODELS : "first-touch"%string ∈ MODELS.
Proof. unfold MODELS. rewrite !elem_of_cons. auto 10. Qed.

Lemma last_touch_in_MODELS : "last-touch"%string ∈ MODELS.
Proof. unfold MODELS. rewrite !elem_of_cons. auto 10. Qed.

Lemma linear_in_MODELS : "linear"%string ∈ MODELS.
Proof. unfold MODELS. rewrite !elem_of_cons. auto 10. Qed.

Lemma chronological_refl (tp : Touchpoint) (t : datetime) :
  timestamp_key tp = Ok t -> chronological tp tp.
Proof. intros Ht. exists t, t. repeat split; [exact Ht|exact Ht|lia]. Qed.

(** X1 (unknown model).  A model name that is not one of [MODELS] makes
    [run_model] raise a [ValueError] that names the offending identifier and
    lists the five supported names, whatever the journeys and the half-life
    are: no journey is looked at. *)
Theorem run_model_unknown_model (model_name : string)
    (journeys : list Journey) (half_life : R) :
  model_name ∉ MODELS ->
  run_model model_name journeys half_life
  = Raise (ValueError
      (String.append "Unknown model: "
        (String.append model_name
          ". Choose from: first-touch, last-touch, linear, time-decay, position-based"))).
Proof.
  intros Hm. unfold run_model.
  repeat match goal with
         | |- context [String.eqb model_name ?s] =>
             destruct (String.eqb_spec model_name s) as [Heq|_];
               [exfalso; apply Hm; rewrite Heq; unfold MODELS;
                rewrite !elem_of_cons; auto 10|]
         end.
  reflexivity.
Qed.

(** X2 (first-touch).  For a converted journey with parseable touchpoints,
    appended to a journey list whose run returned [credits], first-touch adds
    the whole revenue to one channel: that of a touchpoint of the journey
    that no touchpoint of the journey precedes in time, wherever it stands in
    the input list. *)
Theorem first_touch_credits_earliest (journeys : list Journey)
    (journey : Journey) (credits : gmap string R) :
  eligible journey = true ->
  parseable journey = true ->
  first_touch_attribution journeys = Ok credits ->
  exists first,
    first ∈ get_touchpoints journey
    /\ (forall tp, tp ∈ get_touchpoints journey -> chronological first tp)
    /\ first_touch_attribution (journeys ++ [journey])
       = Ok (add_credit credits (channel first) (get_revenue journey 1)).
Proof.
  intros He Hp Hrun.
  destruct (sorted_eligible _ He Hp) as (ks & Hs & Hperm & Hsorted & Hkeys & Hne).
  pose proof (keyed_sorted_chronological _ Hsorted Hkeys) as Hchron.
  apply eligible_inv in He as [Hc Hn].
  destruct ks as [|[k first] rest]; [congruence|].
  exists first. split; [|split].
  - rewrite <- Hperm. left.
  - intros tp Htp. rewrite <- Hperm in Htp.
    rewrite fmap_cons in Htp, Hchron. simpl in Htp, Hchron.
    apply StronglySorted_inv in Hchron as [_ Hall].
    apply elem_of_cons in Htp as [->|Htp].
    + apply Forall_cons in Hkeys as [Hk _]. exact (chronological_refl _ _ Hk).
    + exact (proj1 (Forall_forall _ _) Hall tp Htp).
  - apply (run_model_snoc "first-touch" 0 journeys journey credits
             [(channel first, get_revenue journey 1)]
             first_touch_in_MODELS); [discriminate|exact Hrun|].
    unfold model_credits. simpl. unfold first_touch_credits.
    rewrite Hc, Hn, Hs. reflexivity.
Qed.

(** X3 (last-touch).  For a converted journey with parseable touchpoints,
    appended to a journey list whose run returned [credits], last-touch adds
    the whole revenue to one channel: that of a touchpoint of the journey
    that no touchpoint of the journey follows in time, wherever it stands in
    the input list. *)
Theorem last_touch_credits_latest (journeys : list Journey)
    (journey : Journey) (credits : gmap string R) :
  eligible journey = true ->
  parseable journey = true ->
  last_touch_attribution journeys = Ok credits ->
  exists last,
    last ∈ get_touchpoints journey
    /\ (forall tp, tp ∈ get_touchpoints journey -> chronological tp last)
    /\ last_touch_attribution (journeys ++ [journey])
       = Ok (add_credit credits (channel last) (get_revenue journey 1)).
Proof.
  intros He Hp Hrun.
  destruct (sorted_eligible _ He Hp) as (ks & Hs & Hperm & Hsorted & Hkeys & Hne).
  pose proof (keyed_sorted_chronological _ Hsorted Hkeys) as Hchron.
  apply eligible_inv in He as [Hc Hn].
  apply last_is_Some in Hne as [[k last] Hl].
  apply last_Some in Hl as [init ->].
  rewrite fmap_app in Hs, Hperm, Hchron. simpl in Hs, Hperm, Hchron.
  exists last. split; [|split].
  - rewrite <- Hperm. apply elem_of_app. right. left.
  - intros tp Htp. rewrite <- Hperm in Htp.
    apply elem_of_app in Htp as [Htp|Htp].
    + apply (StronglySorted_app_1_elem_of chronological _ _ tp last Hchron Htp).
      left.
    + apply list_elem_of_singleton in Htp. subst tp.
      apply Forall_app in Hkeys as [_ Hk]. apply Forall_cons in Hk as [Hk _].
      exact (chronological_refl _ _ Hk).
  - apply (run_model_snoc "last-touch" 0 journeys journey credits
             [(channel last, get_revenue journey 1)]
             last_touch_in_MODELS); [discriminate|exact Hrun|].
    unfold model_credits. simpl. unfold last_touch_credits.
    rewrite Hc, Hn, Hs. simpl. rewrite getitem_last. reflexivity.
Qed.







(** A run that returned was not the time-decay model at half-life 0. *)
Lemma run_model_ok_half_life (model_name : string) (half_life : R)
    (journeys : list Journey) (credits : gmap string R) :
  run_model model_name journeys half_life = Ok credits ->
  model_name = "time-decay"%string -> half_life <> 0.
Proof.
  intros Hrun -> ->. rewrite run_model_time_decay_zero in Hrun. discriminate.
Qed.



Lemma summary_total_revenue_cons (journey : Journey) (journeys : list Journey) :
  summary_total_revenue (journey :: journeys)
  = (if get_converted journey then get_revenue journey 0 else 0)
    + summary_total_revenue journeys.
Proof.
  unfold summary_total_revenue. destruct (get_converted journey) eqn:Hc.
  - rewrite filter_cons_True by (rewrite Hc; exact I).
    rewrite fmap_cons, sum_cons. reflexivity.
  - rewrite filter_cons_False by (rewrite Hc; simpl; tauto). lra.
Qed.


(** *** The keys of the ledger *)

Lemma lookup_apply_credits_is_Some (cs : list (string * R))
    (credits : gmap string R) (ch : string) :
  is_Some (apply_credits cs credits !! ch) ->
  is_Some (credits !! ch) \/ ch ∈ cs.*1.
Proof.
  revert credits. induction cs as [|c cs IH]; intros credits; [auto|].
  rewrite apply_credits_cons. intros H. apply IH in H as [H|H].
  - rewrite lookup_add_credit in H.
    destruct (decide (c.1 = ch)) as [<-|_]; [right; left|left; exact H].
  - right. rewrite fmap_cons. right. exact H.
Qed.

Lemma getitem_elem_of {A : Type} (l : list A) (i : Z) (x : A) :
  getitem l i = Ok x -> x ∈ l.
Proof.
  unfold getitem. destruct (_ <? 0)%Z; [discriminate|].
  destruct (l !! _) as [y|] eqn:Hy; [|discriminate].
  intros [= <-]. eapply list_elem_of_lookup_2. exact Hy.
Qed.

Lemma elem_of_slice {A : Type} (l : list A) (start stop : Z) (x : A) :
  x ∈ slice l start stop -> x ∈ l.
Proof.
  unfold slice. intros H. apply subseteq_take in H. apply subseteq_drop in H.
  exact H.
Qed.

Lemma share_list_channels (weights : list R) (total_weight revenue : R)
    (tps : list Touchpoint) (i : nat) (cs : list (string * R)) :
  share_list weights total_weight revenue i tps = Ok cs ->
  cs.*1 = channel <$> tps.
Proof.
  revert i cs. induction tps as [|tp tps IH]; intros i cs; simpl.
  - intros [= <-]. reflexivity.
  - intros H. apply bind_ok in H as (w & _ & H).
    apply bind_ok in H as (more & Hmore & [= <-]).
    rewrite fmap_cons. simpl. f_equal. eapply IH. exact Hmore.
Qed.

Lemma each_gets_channels (share : R) (tps : list Touchpoint) :
  (each_gets share tps).*1 = channel <$> tps.
Proof.
  unfold each_gets. rewrite <- list_fmap_compose. reflexivity.
Qed.

(** Every update of a journey goes to the channel of one of its
    touchpoints. *)
Lemma model_credits_channels (model_name : string) (half_life : R)
    (journey : Journey) (cs : list (string * R)) (ch : string) :
  model_name ∈ MODELS ->
  model_credits model_name half_life journey = Ok cs ->
  ch ∈ cs.*1 ->
  eligible journey = true
  /\ exists tp, tp ∈ get_touchpoints journey /\ channel tp = ch.
Proof.
  intros Hm Hcs Hch. destruct (eligible journey) eqn:He.
  2: { rewrite model_credits_ineligible in Hcs by exact He.
       injection Hcs as <-. apply elem_of_nil in Hch. destruct Hch. }
  split; [reflexivity|].
  apply eligible_inv in He as [Hc Hn].
  assert (Hsorted : forall s tp,
            sorted (get_touchpoints journey) timestamp_key = Ok s ->
            tp ∈ s -> tp ∈ get_touchpoints journey).
  { intros s tp Hs Htp. apply sorted_inv in Hs as (ks & -> & Hperm & _).
    rewrite <- Hperm. exact Htp. }
  assert (Hmap : forall tps : list Touchpoint,
            ch ∈ channel <$> tps -> exists tp, tp ∈ tps /\ channel tp = ch).
  { intros tps H. apply list_elem_of_fmap in H as (tp & -> & Htp). eauto. }
  apply models_cases in Hm.
  destruct Hm as [-> | [-> | [-> | [-> | ->]]]];
    unfold model_credits in Hcs; simpl in Hcs.
  - unfold first_touch_credits in Hcs. rewrite Hc, Hn in Hcs. simpl in Hcs.
    apply bind_ok in Hcs as (s & Hs & Hcs).
    apply bind_ok in Hcs as (a & Ha & [= <-]).
    apply list_elem_of_singleton in Hch. subst ch.
    exists a. split; [|reflexivity].
    eapply Hsorted; [exact Hs|]. eapply getitem_elem_of. exact Ha.
  - unfold last_touch_credits in Hcs. rewrite Hc, Hn in Hcs. simpl in Hcs.
    apply bind_ok in Hcs as (s & Hs & Hcs).
    apply bind_ok in Hcs as (a & Ha & [= <-]).
    apply list_elem_of_singleton in Hch. subst ch.
    exists a. split; [|reflexivity].
    eapply Hsorted; [exact Hs|]. eapply getitem_elem_of. exact Ha.
  - unfold linear_credits in Hcs. rewrite Hc, Hn in Hcs. simpl in Hcs.
    injection Hcs as <-. rewrite each_gets_channels in Hch.
    apply Hmap. exact Hch.
  - unfold time_decay_credits in Hcs. rewrite Hc, Hn in Hcs. simpl in Hcs.
    apply bind_ok in Hcs as (s & Hs & Hcs).
    apply bind_ok in Hcs as (last & _ & Hcs).
    apply bind_ok in Hcs as (conv & _ & Hcs).
    apply bind_ok in Hcs as (weights & _ & Hcs).
    destruct (Req_dec_T (sum weights) 0).
    { injection Hcs as <-. apply elem_of_nil in Hch. destruct Hch. }
    rewrite (share_list_channels _ _ _ _ _ _ Hcs) in Hch.
    apply Hmap in Hch as (tp & Htp & Heq). exists tp. split; [|exact Heq].
    eapply Hsorted; eauto.
  - unfold position_based_credits in Hcs. rewrite Hc, Hn in Hcs.
    simpl in Hcs. apply bind_ok in Hcs as (s & Hs & Hcs).
    destruct (length s =? 1)%nat.
    { apply bind_ok in Hcs as (a & Ha & [= <-]).
      apply list_elem_of_singleton in Hch. subst ch.
      exists a. split; [|reflexivity].
      eapply Hsorted; [exact Hs|]. eapply getitem_elem_of. exact Ha. }
    destruct (length s =? 2)%nat.
    { apply bind_ok in Hcs as (a & Ha & Hcs).
      apply bind_ok in Hcs as (b & Hb & [= <-]).
      simpl in Hch. rewrite !elem_of_cons, elem_of_nil in Hch.
      destruct Hch as [-> | [-> | []]].
      - exists a. split; [|reflexivity].
        eapply Hsorted; [exact Hs|]. eapply getitem_elem_of. exact Ha.
      - exists b. split; [|reflexivity].
        eapply Hsorted; [exact Hs|]. eapply getitem_elem_of. exact Hb. }
    apply bind_ok in Hcs as (a & Ha & Hcs).
    apply bind_ok in Hcs as (b & Hb & [= <-]).
    rewrite !fmap_cons, each_gets_channels in Hch. simpl in Hch.
    rewrite !elem_of_cons in Hch. destruct Hch as [-> | [-> | Hch]].
    + exists a. split; [|reflexivity].
      eapply Hsorted; [exact Hs|]. eapply getitem_elem_of. exact Ha.
    + exists b. split; [|reflexivity].
      eapply Hsorted; [exact Hs|]. eapply getitem_elem_of. exact Hb.
    + apply Hmap in Hch as (tp & Htp & Heq). exists tp. split; [|exact Heq].
      eapply Hsorted; [exact Hs|]. eapply elem_of_slice. exact Htp.
Qed.

Lemma journeys_credits_channels (model_name : string) (half_life : R)
    (journeys : list Journey) (all : list (string * R)) (ch : string) :
  model_name ∈ MODELS ->
  journeys_credits (model_credits model_name half_life) journeys = Ok all ->
  ch ∈ all.*1 ->
  exists j tp, j ∈ journeys /\ eligible j = true
    /\ tp ∈ get_touchpoints j /\ channel tp = ch.
Proof.
  intros Hm. revert all. induction journeys as [|j js IH]; intros all; simpl.
  - intros [= <-] H. apply elem_of_nil in H. destruct H.
  - intros H Hch. apply bind_ok in H as (cs & Hcs & H).
    apply bind_ok in H as (more & Hmore & [= <-]).
    rewrite fmap_app in Hch. apply elem_of_app in Hch as [Hch|Hch].
    + destruct (model_credits_channels _ _ _ _ _ Hm Hcs Hch)
        as (He & tp & Htp & Heq).
      exists j, tp. split; [left|auto].
    + destruct (IH _ Hmore Hch) as (j' & tp & Hj' & H').
      exists j', tp. split; [right; exact Hj'|exact H'].
Qed.

(** X8 (ledger keys).  Every channel that has an entry in the ledger a
    model returns is the channel of a touchpoint of a converted journey of
    the list, and so is one of the summary's observed channels: a model
    never credits a channel that was not seen. *)
Theorem ledger_keys_observed (model_name : string) (half_life : R)
    (journeys : list Journey) (credits : gmap string R) (ch : string) :
  model_name ∈ MODELS ->
  run_model model_name journeys half_life = Ok credits ->
  is_Some (credits !! ch) ->
  (exists j tp, j ∈ journeys /\ eligible j = true
     /\ tp ∈ get_touchpoints j /\ channel tp = ch)
  /\ ch ∈ channels_observed (compute_summary journeys).
Proof.
  intros Hm Hrun Hch. pose proof (run_model_ok_half_life _ _ _ _ Hrun) as Hhl.
  rewrite run_model_credits in Hrun by assumption.
  apply bind_ok in Hrun as (all & Hall & [= <-]).
  apply lookup_apply_credits_is_Some in Hch as [Hch|Hch].
  { rewrite lookup_empty in Hch. destruct Hch as [? Hch]. discriminate. }
  destruct (journeys_credits_channels _ _ _ _ _ Hm Hall Hch)
    as (j & tp & Hj & He & Htp & Heq).
  split; [eauto 10|].
  apply elem_of_channels_observed. eauto.
Qed.


(** *** The summary *)

Lemma str_le_total : Total str_le.
Proof.
  intros x y. unfold str_le, String.leb.
  rewrite (String.compare_antisym y x).
  destruct (String.compare x y); simpl; auto.
Qed.

(** X9 (observed channels).  The summary's [channels_observed] is in
    ascending string order and has no duplicate, and a channel is in it
    exactly when it is the channel of a touchpoint of some journey of the
    list, converted or not. *)
Theorem channels_observed_sorted (journeys : list Journey) :
  Sorted str_le (channels_observed (compute_summary journeys))
  /\ NoDup (channels_observed (compute_summary journeys))
  /\ forall ch,
       ch ∈ channels_observed (compute_summary journeys)
       <-> exists j tp,
             j ∈ journeys /\ tp ∈ get_touchpoints j /\ channel tp = ch.
Proof.
  split; [|split].
  - simpl. apply (@Sorted_merge_sort _ str_le _ str_le_total).
  - simpl. rewrite merge_sort_Permutation. apply NoDup_elements.
  - apply elem_of_channels_observed.
Qed.

Lemma summary_converted_le (journeys : list Journey) :
  (summary_converted journeys <= length journeys)%nat.
Proof. unfold summary_converted. apply length_filter. Qed.

(** X10 (conversion rate).  The summary never counts more converted
    journeys than journeys; the percentage it rounds to two places is
    [100 * converted / total], lies between 0 and 100, and is 0 for the empty
    journey list, where the division is not attempted. *)
Theorem conversion_rate_bounds (journeys : list Journey) :
  let s := compute_summary journeys in
  let rate :=
    safe_divide (INR (converted_journeys s)) (INR (total_journeys s)) * 100 in
  (converted_journeys s <= total_journeys s)%nat
  /\ conversion_rate s = round rate 2
  /\ 0 <= rate <= 100
  /\ (journeys <> [] ->
      rate = INR (converted_journeys s) / INR (total_journeys s) * 100)
  /\ (journeys = [] -> rate = 0).
Proof.
  simpl. pose proof (summary_converted_le journeys) as Hle.
  split; [exact Hle|]. split; [reflexivity|].
  assert (Hc : 0 <= INR (summary_converted journeys)) by apply pos_INR.
  assert (Hcl : INR (summary_converted journeys) <= INR (length journeys))
    by (apply le_INR; exact Hle).
  destruct journeys as [|j js].
  - unfold safe_divide, safe_divide_default. simpl INR.
    destruct (Req_dec_T 0 0) as [_|H]; [|destruct H; reflexivity].
    split; [lra|]. split; [congruence|]. intros _. lra.
  - assert (Hpos : 0 < INR (length (j :: js)))
      by (apply lt_0_INR; simpl; lia).
    rewrite safe_divide_nonzero by lra.
    split; [|split; [reflexivity|discriminate]].
    assert (Hq : 0 <= INR (summary_converted (j :: js)) / INR (length (j :: js))
                 <= 1).
    { split.
      - apply Rmult_le_pos; [exact Hc|]. left. apply Rinv_0_lt_compat, Hpos.
      - apply (Rmult_le_reg_r (INR (length (j :: js)))); [exact Hpos|].
        unfold Rdiv. rewrite Rmult_assoc, Rinv_l by lra. lra. }
    lra.
Qed.

(** *** The time-decay weights *)

Lemma raw_weights_lookup (decay_rate : R) (conversion_time : datetime)
    (tps : list Touchpoint) (weights : list R) (i : nat) (tp : Touchpoint) :
  raw_weights decay_rate conversion_time tps = Ok weights ->
  tps !! i = Some tp ->
  exists t, parse_timestamp (timestamp tp) = Ok t
    /\ weights !! i = Some (decay_weight decay_rate conversion_time t).
Proof.
  revert weights i. induction tps as [|tp0 tps IH]; intros weights i H Hi;
    [discriminate|]. simpl in H.
  apply bind_ok in H as (t0 & Ht0 & H).
  apply bind_ok in H as (ws & Hws & [= <-]).
  destruct i as [|i]; simpl in Hi.
  - injection Hi as <-. exists t0. split; [exact Ht0|reflexivity].
  - destruct (IH _ _ Hws Hi) as (t & Ht & Hw). exists t. auto.
Qed.

Lemma decay_rate_pos (half_life : R) : 0 < half_life -> 0 < ln 2 / half_life.
Proof.
  intros Hhl. apply Rdiv_lt_0_compat; [|exact Hhl].
  rewrite <- ln_1. apply ln_increasing; lra.
Qed.

Lemma decay_weight_mono (decay_rate : R) (conversion_time t1 t2 : datetime) :
  0 < decay_rate -> (t1 <= t2)%Z ->
  decay_weight decay_rate conversion_time t1
  <= decay_weight decay_rate conversion_time t2.
Proof.
  intros Hd Ht. unfold decay_weight.
  assert (Hz : IZR (conversion_time - t2) <= IZR (conversion_time - t1))
    by (apply IZR_le; lia).
  assert (Harg : - decay_rate * (IZR (conversion_time - t1) / 86400)
                 <= - decay_rate * (IZR (conversion_time - t2) / 86400)).
  { unfold Rdiv. nra. }
  destruct Harg as [Hlt|Heq]; [left; apply exp_increasing, Hlt|].
  rewrite Heq. lra.
Qed.

(** X11 (later touchpoints weigh more, in exact arithmetic).  With the
    decay rate and [exp] read as real numbers and a positive half-life: among
    the raw weights the time-decay loop computes for the touchpoints of a
    journey, a touchpoint that is not earlier than another has a weight that
    is not smaller. *)
Theorem time_decay_weight_monotone (half_life : R) (conversion_time : datetime)
    (tps : list Touchpoint) (weights : list R) (i j : nat)
    (tp_i tp_j : Touchpoint) (t_i t_j : datetime) :
  0 < half_life ->
  raw_weights (ln 2 / half_life) conversion_time tps = Ok weights ->
  tps !! i = Some tp_i -> tps !! j = Some tp_j ->
  parse_timestamp (timestamp tp_i) = Ok t_i ->
  parse_timestamp (timestamp tp_j) = Ok t_j ->
  (t_i <= t_j)%Z ->
  exists w_i w_j,
    weights !! i = Some w_i /\ weights !! j = Some w_j /\ w_i <= w_j.
Proof.
  intros Hhl Hraw Hi Hj Hti Htj Hle.
  destruct (raw_weights_lookup _ _ _ _ _ _ Hraw Hi) as (t1 & Ht1 & Hw1).
  destruct (raw_weights_lookup _ _ _ _ _ _ Hraw Hj) as (t2 & Ht2 & Hw2).
  rewrite Hti in Ht1. injection Ht1 as <-.
  rewrite Htj in Ht2. injection Ht2 as <-.
  eexists _, _. split; [exact Hw1|]. split; [exact Hw2|].
  apply decay_weight_mono; [apply decay_rate_pos, Hhl|exact Hle].
Qed.

(** X12 (half-life, in exact arithmetic).  With the decay rate and [exp]
    read as real numbers and a positive half-life: a touchpoint that lies
    exactly [half_life] days before the conversion time gets the raw weight
    one half in the time-decay loop.  In binary64 the weight is one half up
    to rounding only. *)
Theorem time_decay_half_life (half_life : R) (conversion_time : datetime)
    (tps : list Touchpoint) (weights : list R) (i : nat)
    (tp : Touchpoint) (t : datetime) :
  0 < half_life ->
  raw_weights (ln 2 / half_life) conversion_time tps = Ok weights ->
  tps !! i = Some tp ->
  parse_timestamp (timestamp tp) = Ok t ->
  IZR (conversion_time - t) / 86400 = half_life ->
  weights !! i = Some (1 / 2).
Proof.
  intros Hhl Hraw Hi Ht Hdays.
  destruct (raw_weights_lookup _ _ _ _ _ _ Hraw Hi) as (t' & Ht' & Hw).
  rewrite Ht in Ht'. injection Ht' as <-. rewrite Hw.
  f_equal. unfold decay_weight. rewrite Hdays.
  replace (- (ln 2 / half_life) * half_life) with (- ln 2)
    by (field; lra).
  rewrite exp_Ropp, exp_ln by lra. lra.
Qed.


(** *** The order of the touchpoints of a journey *)

Lemma is_empty_perm {A : Type} (l k : list A) :
  l ≡ₚ k -> is_empty l = is_empty k.
Proof.
  intros Hp. destruct l, k; try reflexivity.
  - apply Permutation_nil_l in Hp. discriminate.
  - apply Permutation_nil_r in Hp. discriminate.
Qed.

(** Touchpoints with pairwise distinct times sort to one list, however they
    are listed. *)
Lemma sorted_perm_distinct (tps tps' : list Touchpoint) :
  tps' ≡ₚ tps ->
  Forall (fun tp => is_ok (timestamp_key tp) = true) tps ->
  (forall a b, a ∈ tps -> b ∈ tps ->
     parse_timestamp (timestamp a) = parse_timestamp (timestamp b) -> a = b) ->
  sorted tps' timestamp_key = sorted tps timestamp_key.
Proof.
  intros Hperm Hok Hdistinct.
  assert (Hok' : Forall (fun tp => is_ok (timestamp_key tp) = true) tps')
    by (rewrite Hperm; exact Hok).
  destruct (sorted_ok _ _ Hok) as (s & Hs & Hsp).
  destruct (sorted_ok _ _ Hok') as (s' & Hs' & Hsp').
  rewrite Hs, Hs'. f_equal.
  destruct (sorted_inv _ _ _ Hs) as (ks & -> & _ & Hsorted & Hkeys).
  destruct (sorted_inv _ _ _ Hs') as (ks' & -> & _ & Hsorted' & Hkeys').
  apply (StronglySorted_unique_strong chronological).
  - intros a b Ha Hb (ta & tb & Hta & Htb & Hle) (tb' & ta' & Htb' & Hta' & Hle').
    rewrite Hsp', Hperm in Ha. rewrite Hsp in Hb.
    apply Hdistinct; [exact Ha|exact Hb|].
    unfold timestamp_key in *. rewrite Hta, Htb. f_equal.
    rewrite Hta in Hta'. rewrite Htb in Htb'.
    injection Hta' as <-. injection Htb' as <-. lia.
  - apply keyed_sorted_chronological; assumption.
  - apply keyed_sorted_chronological; assumption.
  - rewrite Hsp', Hsp. exact Hperm.
Qed.

Lemma model_credits_touchpoint_perm (model_name : string) (half_life : R)
    (journey journey' : Journey) :
  model_name ∈ MODELS ->
  parseable journey = true ->
  (forall a b, a ∈ get_touchpoints journey -> b ∈ get_touchpoints journey ->
     parse_timestamp (timestamp a) = parse_timestamp (timestamp b) -> a = b) ->
  get_converted journey' = get_converted journey ->
  get_revenue journey' 1 = get_revenue journey 1 ->
  get_touchpoints journey' ≡ₚ get_touchpoints journey ->
  exists cs cs',
    model_credits model_name half_life journey = Ok cs
    /\ model_credits model_name half_life journey' = Ok cs'
    /\ cs ≡ₚ cs'.
Proof.
  intros Hm Hp Hdistinct Hconv Hrev Hperm.
  pose proof (model_credits_ok _ half_life _ Hm Hp) as Hok.
  destruct (model_credits model_name half_life journey) as [cs|] eqn:Hcs;
    [|discriminate].
  pose proof (is_empty_perm _ _ Hperm) as Hempty.
  pose proof (sorted_perm_distinct _ _ Hperm (parseable_Forall _ Hp) Hdistinct)
    as Hsorted.
  apply models_cases in Hm.
  destruct Hm as [-> | [-> | [-> | [-> | ->]]]];
    unfold model_credits in Hcs |- *; simpl in Hcs |- *.
  - exists cs, cs. split; [reflexivity|]. split; [|reflexivity].
    rewrite <- Hcs. unfold first_touch_credits.
    rewrite Hconv, Hrev, Hempty, Hsorted. reflexivity.
  - exists cs, cs. split; [reflexivity|]. split; [|reflexivity].
    rewrite <- Hcs. unfold last_touch_credits.
    rewrite Hconv, Hrev, Hempty, Hsorted. reflexivity.
  - unfold linear_credits in Hcs |- *. rewrite Hconv, Hrev, Hempty.
    destruct (negb (get_converted journey)).
    { exists cs, cs. split; [reflexivity|]. split; [|reflexivity].
      rewrite <- Hcs. reflexivity. }
    destruct (is_empty (get_touchpoints journey)).
    { exists cs, cs. split; [reflexivity|]. split; [|reflexivity].
      rewrite <- Hcs. reflexivity. }
    injection Hcs as <-. eexists _, _. split; [reflexivity|].
    split; [reflexivity|].
    rewrite (Permutation_length Hperm). unfold each_gets.
    rewrite Hperm. reflexivity.
  - exists cs, cs. split; [reflexivity|]. split; [|reflexivity].
    rewrite <- Hcs. unfold time_decay_credits.
    rewrite Hconv, Hrev, Hempty, Hsorted. reflexivity.
  - exists cs, cs. split; [reflexivity|]. split; [|reflexivity].
    rewrite <- Hcs. unfold position_based_credits.
    rewrite Hconv, Hrev, Hempty, Hsorted. reflexivity.
Qed.

(** X13 (input order of touchpoints).  For each of the five models, when
    the timestamps of a journey parse and distinct touchpoints of it have
    distinct times, listing its touchpoints in another order changes nothing
    in the result of the run: only the timestamps order the touchpoints. *)
Theorem touchpoint_order_independence (model_name : string) (half_life : R)
    (js1 js2 : list Journey) (journey journey' : Journey) :
  model_name ∈ MODELS ->
  parseable journey = true ->
  (forall a b, a ∈ get_touchpoints journey -> b ∈ get_touchpoints journey ->
     parse_timestamp (timestamp a) = parse_timestamp (timestamp b) -> a = b) ->
  get_converted journey' = get_converted journey ->
  get_revenue journey' 1 = get_revenue journey 1 ->
  get_touchpoints journey' ≡ₚ get_touchpoints journey ->
  run_model model_name (js1 ++ journey' :: js2) half_life
  = run_model model_name (js1 ++ journey :: js2) half_life.
Proof.
  intros Hm Hp Hdistinct Hconv Hrev Hperm.
  destruct (model_credits_touchpoint_perm _ half_life _ _ Hm Hp Hdistinct
              Hconv Hrev Hperm) as (cs & cs' & Hcs & Hcs' & Hcsp).
  assert (Hgoal : (model_name = "time-decay"%string -> half_life <> 0) ->
            run_model model_name (js1 ++ journey' :: js2) half_life
            = run_model model_name (js1 ++ journey :: js2) half_life).
  { intros Hhl. rewrite !run_model_credits by assumption.
    rewrite !journeys_credits_app. simpl. rewrite Hcs, Hcs'. simpl.
    destruct (journeys_credits _ js1) as [c1|]; simpl; [|reflexivity].
    destruct (journeys_credits _ js2) as [c2|]; simpl; [|reflexivity].
    f_equal. apply apply_credits_perm. rewrite Hcsp. reflexivity. }
  destruct (decide (model_name = "time-decay"%string)) as [Htd|Hntd];
    [destruct (Req_dec_T half_life 0) as [H0|Hn0]|].
  - subst. rewrite !run_model_time_decay_zero. reflexivity.
  - apply Hgoal. intros _. exact Hn0.
  - apply Hgoal. intros Htd. contradiction.
Qed.

(** *** Journeys with one touchpoint *)

Lemma sorted_singleton (tp : Touchpoint) (t : datetime) :
  timestamp_key tp = Ok t -> sorted [tp] timestamp_key = Ok [tp].
Proof. intros Ht. unfold sorted. simpl. rewrite Ht. reflexivity. Qed.

Lemma model_credits_single (model_name : string) (half_life : R)
    (journey : Journey) (tp : Touchpoint) :
  model_name ∈ MODELS ->
  get_converted journey = true ->
  get_touchpoints journey = [tp] ->
  is_ok (parse_timestamp (timestamp tp)) = true ->
  model_credits model_name half_life journey
  = Ok [(channel tp, get_revenue journey 1)].
Proof.
  intros Hm Hc Htps Hok.
  destruct (parse_timestamp (timestamp tp)) as [t|] eqn:Ht; [|discriminate].
  pose proof (sorted_singleton tp t Ht) as Hs.
  apply models_cases in Hm.
  destruct Hm as [-> | [-> | [-> | [-> | ->]]]]; unfold model_credits; simpl.
  - unfold first_touch_credits. rewrite Hc, Htps. simpl. rewrite Hs.
    reflexivity.
  - unfold last_touch_credits. rewrite Hc, Htps. simpl. rewrite Hs.
    reflexivity.
  - unfold linear_credits. rewrite Hc, Htps. simpl.
    rewrite safe_divide_nonzero by lra. do 3 f_equal. lra.
  - unfold time_decay_credits. rewrite Hc, Htps. simpl. rewrite Hs. simpl.
    repeat (rewrite Ht; simpl).
    set (w := exp _). assert (Hw : 0 < w) by apply exp_pos.
    unfold sum. simpl. destruct (Req_dec_T (w + 0) 0) as [H0|Hn0]; [lra|].
    simpl. rewrite safe_divide_nonzero by exact Hn0.
    do 3 f_equal. field. lra.
  - unfold position_based_credits. rewrite Hc, Htps. simpl. rewrite Hs.
    reflexivity.
Qed.

(** X14 (one touchpoint, in exact arithmetic).  With floats read as real
    numbers: for a converted journey with exactly one touchpoint, whose
    timestamp parses, the five models agree: each adds the whole revenue for
    the channel of that touchpoint to the ledger of the journeys before
    it. *)
Theorem single_touchpoint_full_credit (model_name : string) (half_life : R)
    (journeys : list Journey) (journey : Journey) (tp : Touchpoint)
    (credits : gmap string R) :
  model_name ∈ MODELS ->
  get_converted journey = true ->
  get_touchpoints journey = [tp] ->
  is_ok (parse_timestamp (timestamp tp)) = true ->
  run_model model_name journeys half_life = Ok credits ->
  run_model model_name (journeys ++ [journey]) half_life
  = Ok (add_credit credits (channel tp) (get_revenue journey 1)).
Proof.
  intros Hm Hc Htps Hok Hrun.
  apply (run_model_snoc model_name half_life journeys journey credits
           [(channel tp, get_revenue journey 1)] Hm
           (run_model_ok_half_life _ _ _ _ Hrun) Hrun).
  apply model_credits_single; assumption.
Qed.


(** *** Touchpoints with equal timestamps *)

(** Case on the key comparison of [insert_by_key]. *)
Ltac case_leb E :=
  match goal with
  | |- context [if ?b then _ else _] => destruct b eqn:E
  end;
  unfold datetime in *.

Lemma insert_by_key_all_lt {A : Type} (x : datetime * A)
    (l : list (datetime * A)) :
  Forall (fun y => (y.1 < x.1)%Z) l -> insert_by_key x l = l ++ [x].
Proof.
  induction 1 as [|y l Hy _ IH]; simpl; [reflexivity|].
  case_leb E; [apply Z.leb_le in E; lia|].
  rewrite IH. reflexivity.
Qed.

Lemma insert_by_key_keeps_last {A : Type} (x m : datetime * A)
    (init : list (datetime * A)) :
  (x.1 <= m.1)%Z -> exists init', insert_by_key x (init ++ [m]) = init' ++ [m].
Proof.
  intros Hle. induction init as [|y init [init' IH]]; simpl.
  - case_leb E; [|apply Z.leb_gt in E; lia].
    exists [x]. reflexivity.
  - destruct (x.1 <=? y.1)%Z.
    + exists (x :: y :: init). reflexivity.
    + rewrite IH. exists (y :: init'). reflexivity.
Qed.

(** The stable sort puts first the first listed of the elements with the
    least key. *)
Lemma sort_by_key_head {A : Type} (m : datetime * A)
    (pre post : list (datetime * A)) :
  Forall (fun p => (m.1 < p.1)%Z) pre ->
  Forall (fun p => (m.1 <= p.1)%Z) post ->
  exists rest, sort_by_key (pre ++ m :: post) = m :: rest.
Proof.
  intros Hpre Hpost. unfold datetime in *.
  induction Hpre as [|p pre Hp _ [rest IH]].
  - change (sort_by_key ([] ++ m :: post))
      with (insert_by_key m (sort_by_key post)).
    destruct (sort_by_key post) as [|y r] eqn:Hs; simpl; [eauto|].
    assert (Hy : (m.1 <= y.1)%Z).
    { apply (proj1 (Forall_forall _ _) Hpost).
      rewrite <- (sort_by_key_perm post), Hs. left. }
    case_leb E; [eauto|apply Z.leb_gt in E; lia].
  - change (sort_by_key ((p :: pre) ++ m :: post))
      with (insert_by_key p (sort_by_key (pre ++ m :: post))).
    rewrite IH. simpl.
    case_leb E; [apply Z.leb_le in E; lia|]. eauto.
Qed.

(** The stable sort puts last the last listed of the elements with the
    greatest key. *)
Lemma sort_by_key_last {A : Type} (m : datetime * A)
    (pre post : list (datetime * A)) :
  Forall (fun p => (p.1 <= m.1)%Z) pre ->
  Forall (fun p => (p.1 < m.1)%Z) post ->
  exists init, sort_by_key (pre ++ m :: post) = init ++ [m].
Proof.
  intros Hpre Hpost. unfold datetime in *.
  induction Hpre as [|p pre Hp _ [init IH]].
  - change (sort_by_key ([] ++ m :: post))
      with (insert_by_key m (sort_by_key post)).
    exists (sort_by_key post). apply insert_by_key_all_lt.
    rewrite sort_by_key_perm. exact Hpost.
  - change (sort_by_key ((p :: pre) ++ m :: post))
      with (insert_by_key p (sort_by_key (pre ++ m :: post))).
    rewrite IH. apply insert_by_key_keeps_last, Hp.
Qed.

Lemma with_keys_time_of {A : Type} (key : A -> result datetime)
    (time_of : A -> datetime) (l : list A) :
  (forall x, x ∈ l -> key x = Ok (time_of x)) ->
  with_keys key l = Ok ((fun x => (time_of x, x)) <$> l).
Proof.
  induction l as [|x l IH]; intros H; simpl; [reflexivity|].
  rewrite (H x) by left. simpl.
  rewrite IH by (intros y Hy; apply H; right; exact Hy). reflexivity.
Qed.

(** X15 (first-touch, ties).  For a converted journey with parseable
    touchpoints, first-touch credits the whole revenue to the touchpoint [m]
    that is strictly earlier than every touchpoint listed before it and not
    later than any listed after it: among touchpoints with the earliest time,
    the one listed first. *)
Theorem first_touch_tie_break (journeys : list Journey) (journey : Journey)
    (credits : gmap string R) (time_of : Touchpoint -> datetime)
    (pre post : list Touchpoint) (m : Touchpoint) :
  get_converted journey = true ->
  get_touchpoints journey = pre ++ m :: post ->
  (forall tp, tp ∈ get_touchpoints journey ->
     parse_timestamp (timestamp tp) = Ok (time_of tp)) ->
  (forall tp, tp ∈ pre -> (time_of m < time_of tp)%Z) ->
  (forall tp, tp ∈ post -> (time_of m <= time_of tp)%Z) ->
  first_touch_attribution journeys = Ok credits ->
  first_touch_attribution (journeys ++ [journey])
  = Ok (add_credit credits (channel m) (get_revenue journey 1)).
Proof.
  intros Hc Htps Htimes Hpre Hpost Hrun.
  apply (run_model_snoc "first-touch" 0 journeys journey credits
           [(channel m, get_revenue journey 1)]
           first_touch_in_MODELS); [discriminate|exact Hrun|].
  unfold model_credits. simpl. unfold first_touch_credits.
  rewrite Hc. simpl negb. cbv iota.
  unfold sorted. rewrite (with_keys_time_of _ time_of) by exact Htimes.
  assert (Hne : is_empty (pre ++ m :: post) = false)
    by (destruct pre; reflexivity).
  rewrite Htps, Hne, fmap_app, fmap_cons.
  destruct (sort_by_key_head (time_of m, m)
              ((fun x => (time_of x, x)) <$> pre)
              ((fun x => (time_of x, x)) <$> post)) as [rest Hs].
  { apply Forall_fmap, Forall_forall. intros tp Htp. simpl. auto. }
  { apply Forall_fmap, Forall_forall. intros tp Htp. simpl. auto. }
  cbn [bind]. rewrite Hs. reflexivity.
Qed.

(** X16 (last-touch, ties).  For a converted journey with parseable
    touchpoints, last-touch credits the whole revenue to the touchpoint [m]
    that is not earlier than any touchpoint listed before it and strictly
    later than every touchpoint listed after it: among touchpoints with the
    latest time, the one listed last. *)
Theorem last_touch_tie_break (journeys : list Journey) (journey : Journey)
    (credits : gmap string R) (time_of : Touchpoint -> datetime)
    (pre post : list Touchpoint) (m : Touchpoint) :
  get_converted journey = true ->
  get_touchpoints journey = pre ++ m :: post ->
  (forall tp, tp ∈ get_touchpoints journey ->
     parse_timestamp (timestamp tp) = Ok (time_of tp)) ->
  (forall tp, tp ∈ pre -> (time_of tp <= time_of m)%Z) ->
  (forall tp, tp ∈ post -> (time_of tp < time_of m)%Z) ->
  last_touch_attribution journeys = Ok credits ->
  last_touch_attribution (journeys ++ [journey])
  = Ok (add_credit credits (channel m) (get_revenue journey 1)).
Proof.
  intros Hc Htps Htimes Hpre Hpost Hrun.
  apply (run_model_snoc "last-touch" 0 journeys journey credits
           [(channel m, get_revenue journey 1)]
           last_touch_in_MODELS); [discriminate|exact Hrun|].
  unfold model_credits. simpl. unfold last_touch_credits.
  rewrite Hc. simpl negb. cbv iota.
  unfold sorted. rewrite (with_keys_time_of _ time_of) by exact Htimes.
  assert (Hne : is_empty (pre ++ m :: post) = false)
    by (destruct pre; reflexivity).
  rewrite Htps, Hne, fmap_app, fmap_cons.
  destruct (sort_by_key_last (time_of m, m)
              ((fun x => (time_of x, x)) <$> pre)
              ((fun x => (time_of x, x)) <$> post)) as [init Hs].
  { apply Forall_fmap, Forall_forall. intros tp Htp. simpl. auto. }
  { apply Forall_fmap, Forall_forall. intros tp Htp. simpl. auto. }
  cbn [bind]. rewrite Hs, fmap_app. simpl. rewrite getitem_last.
  reflexivity.
Qed.


(** *** Converted journeys without touchpoints; empty ledgers *)

Lemma summary_total_revenue_app (js1 js2 : list Journey) :
  summary_total_revenue (js1 ++ js2)
  = summary_total_revenue js1 + summary_total_revenue js2.
Proof.
  induction js1 as [|j js1 IH].
  - rewrite app_nil_l. change (summary_total_revenue []) with 0. lra.
  - rewrite <- app_comm_cons, !summary_total_revenue_cons, IH. lra.
Qed.

Lemma summary_converted_app (js1 js2 : list Journey) :
  summary_converted (js1 ++ js2)
  = (summary_converted js1 + summary_converted js2)%nat.
Proof.
  unfold summary_converted. rewrite filter_app, length_app. reflexivity.
Qed.

(** X17 (converted, no touchpoint).  A converted journey with an empty
    touchpoint list is counted by the summary as converted and adds its
    revenue (0 when the key is absent) to the summary's total revenue, while
    it changes the result of none of the five models: the summary can report
    revenue that no model attributes. *)
Theorem summary_counts_touchless_conversion (model_name : string)
    (half_life : R) (js1 js2 : list Journey) (journey : Journey) :
  model_name ∈ MODELS ->
  get_converted journey = true ->
  get_touchpoints journey = [] ->
  summary_total_revenue (js1 ++ journey :: js2)
  = summary_total_revenue (js1 ++ js2) + get_revenue journey 0
  /\ converted_journeys (compute_summary (js1 ++ journey :: js2))
     = S (converted_journeys (compute_summary (js1 ++ js2)))
  /\ run_model model_name (js1 ++ journey :: js2) half_life
     = run_model model_name (js1 ++ js2) half_life.
Proof.
  intros Hm Hc Htps. split; [|split].
  - rewrite !summary_total_revenue_app, summary_total_revenue_cons, Hc. lra.
  - simpl. rewrite !summary_converted_app.
    change (journey :: js2) with ([journey] ++ js2).
    rewrite summary_converted_app.
    assert (H1 : summary_converted [journey] = 1%nat).
    { unfold summary_converted.
      rewrite filter_cons_True by (rewrite Hc; exact I). reflexivity. }
    rewrite H1. lia.
  - assert (He : eligible journey = false)
      by (unfold eligible; rewrite Htps; apply andb_false_r).
    assert (Hgoal : (model_name = "time-decay"%string -> half_life <> 0) ->
              run_model model_name (js1 ++ journey :: js2) half_life
              = run_model model_name (js1 ++ js2) half_life).
    { intros Hhl. rewrite !run_model_credits by assumption.
      rewrite journeys_credits_skip; [reflexivity|].
      apply model_credits_ineligible, He. }
    destruct (decide (model_name = "time-decay"%string)) as [Htd|Hntd];
      [destruct (Req_dec_T half_life 0) as [H0|Hn0]|].
    + subst. rewrite !run_model_time_decay_zero. reflexivity.
    + apply Hgoal. intros _. exact Hn0.
    + apply Hgoal. intros Htd. contradiction.
Qed.

Lemma lookup_apply_credits_mono (cs : list (string * R))
    (credits : gmap string R) (ch : string) :
  is_Some (credits !! ch) -> is_Some (apply_credits cs credits !! ch).
Proof.
  revert credits. induction cs as [|c cs IH]; intros credits H; [exact H|].
  rewrite apply_credits_cons. apply IH. rewrite lookup_add_credit.
  destruct (decide (c.1 = ch)); [eauto|exact H].
Qed.

Lemma apply_credits_nonempty (cs : list (string * R))
    (credits : gmap string R) :
  cs <> [] -> apply_credits cs credits <> ∅.
Proof.
  destruct cs as [|c cs]; [congruence|]. intros _ Hempty.
  assert (H : is_Some (apply_credits (c :: cs) credits !! c.1)).
  { rewrite apply_credits_cons. apply lookup_apply_credits_mono.
    rewrite lookup_add_credit, decide_True by reflexivity. eauto. }
  rewrite Hempty, lookup_empty in H. destruct H as [? H]. discriminate.
Qed.

(** An eligible journey whose updates are computed has at least one. *)
Lemma model_credits_nonempty (model_name : string) (half_life : R)
    (journey : Journey) (cs : list (string * R)) :
  model_name ∈ MODELS -> eligible journey = true ->
  model_credits model_name half_life journey = Ok cs -> cs <> [].
Proof.
  intros Hm He Hcs.
  assert (Htps : get_touchpoints journey <> [])
    by (apply is_empty_false, (eligible_inv _ He)).
  destruct (decide (model_name = "linear"%string)) as [->|Hlin].
  { unfold model_credits in Hcs. simpl in Hcs.
    rewrite (linear_credits_eligible _ He) in Hcs. injection Hcs as <-.
    unfold each_gets. destruct (get_touchpoints journey);
      [congruence|discriminate]. }
  destruct (parseable journey) eqn:Hp.
  2: { destruct (model_credits_unparseable _ half_life _ Hm Hlin He Hp)
         as (tp & _ & _ & Hraise). congruence. }
  apply models_cases in Hm.
  destruct Hm as [-> | [-> | [-> | [-> | ->]]]]; try congruence;
    unfold model_credits in Hcs; simpl in Hcs.
  - destruct (first_touch_credits_eligible _ He Hp)
      as (ks & k & a & rest & _ & _ & H). congruence.
  - destruct (last_touch_credits_eligible _ He Hp)
      as (ks & init & k & a & _ & _ & H). congruence.
  - destruct (time_decay_credits_eligible (ln 2 / half_life) _ He Hp)
      as (ks & init & tl & a & _ & -> & _ & _ & _ & _ & H).
    rewrite H in Hcs. injection Hcs as <-.
    rewrite fmap_app. intros Hnil. apply app_eq_nil in Hnil as [_ Hnil].
    discriminate.
  - destruct (sorted_eligible _ He Hp) as (ks & Hs & _ & _ & _ & Hne).
    destruct (position_based_credits_sorted _ _ He Hs) as (H1 & H2 & H3).
    assert (Hs_ne : ks.*2 <> []) by (destruct ks; [congruence|discriminate]).
    destruct (position_cases _ Hs_ne)
      as [(a & Ha)|[(a & b & Hab)|(a & mid & b & Hmid & Hamb)]].
    + rewrite (H1 a Ha) in Hcs. congruence.
    + rewrite (H2 a b Hab) in Hcs. congruence.
    + rewrite (H3 a mid b Hmid Hamb) in Hcs. congruence.
Qed.

Lemma journeys_credits_nil_iff (model_name : string) (half_life : R)
    (journeys : list Journey) (all : list (string * R)) :
  model_name ∈ MODELS ->
  journeys_credits (model_credits model_name half_life) journeys = Ok all ->
  all = [] <-> Forall (fun j => eligible j = false) journeys.
Proof.
  intros Hm. revert all. induction journeys as [|j js IH]; intros all H;
    simpl in H.
  - injection H as <-. split; [constructor|reflexivity].
  - apply bind_ok in H as (cs & Hcs & H).
    apply bind_ok in H as (more & Hmore & [= <-]).
    rewrite Forall_cons. rewrite <- (IH _ Hmore). split.
    + intros Hnil. apply app_eq_nil in Hnil as [-> ->].
      split; [|reflexivity]. destruct (eligible j) eqn:He; [|reflexivity].
      exfalso. exact (model_credits_nonempty _ _ _ _ Hm He Hcs eq_refl).
    + intros [He ->]. rewrite model_credits_ineligible in Hcs by exact He.
      injection Hcs as <-. reflexivity.
Qed.

(** X18 (empty ledger).  When a model returns a ledger, the ledger is empty
    exactly when no journey of the list is converted with at least one
    touchpoint; a journey that is credits at least one channel, also when
    its revenue is 0. *)
Theorem ledger_empty_iff_no_eligible (model_name : string) (half_life : R)
    (journeys : list Journey) (credits : gmap string R) :
  model_name ∈ MODELS ->
  run_model model_name journeys half_life = Ok credits ->
  credits = ∅ <-> Forall (fun j => eligible j = false) journeys.
Proof.
  intros Hm Hrun. pose proof (run_model_ok_half_life _ _ _ _ Hrun) as Hhl.
  rewrite run_model_credits in Hrun by assumption.
  apply bind_ok in Hrun as (all & Hall & [= <-]).
  rewrite <- (journeys_credits_nil_iff _ _ _ _ Hm Hall). split.
  - intros Hempty. destruct all as [|c all]; [reflexivity|].
    exfalso. apply (apply_credits_nonempty (c :: all) ∅); [discriminate|].
    exact Hempty.
  - intros ->. reflexivity.
Qed.


(** *** The models that credit every touchpoint *)

Lemma lookup_apply_credits_elem (cs : list (string * R))
    (credits : gmap string R) (ch : string) :
  ch ∈ cs.*1 -> is_Some (apply_credits cs credits !! ch).
Proof.
  revert credits. induction cs as [|c cs IH]; intros credits Hch.
  - apply elem_of_nil in Hch. destruct Hch.
  - rewrite apply_credits_cons. rewrite fmap_cons in Hch.
    apply elem_of_cons in Hch as [->|Hch]; [|apply IH, Hch].
    apply lookup_apply_credits_mono.
    rewrite lookup_add_credit, decide_True by reflexivity. eauto.
Qed.

Lemma model_credits_covers (model_name : string) (half_life : R)
    (journey : Journey) (cs : list (string * R)) (tp : Touchpoint) :
  model_name ∈ ["linear"; "time-decay"; "position-based"]%string ->
  eligible journey = true ->
  model_credits model_name half_life journey = Ok cs ->
  tp ∈ get_touchpoints journey ->
  channel tp ∈ cs.*1.
Proof.
  intros Hm He Hcs Htp.
  rewrite !elem_of_cons, elem_of_nil in Hm.
  destruct Hm as [-> | [-> | [-> | []]]].
  - unfold model_credits in Hcs. simpl in Hcs.
    rewrite (linear_credits_eligible _ He) in Hcs. injection Hcs as <-.
    rewrite each_gets_channels. apply list_elem_of_fmap_2. exact Htp.
  - assert (Hin : "time-decay"%string ∈ MODELS)
      by (unfold MODELS; rewrite !elem_of_cons; auto 10).
    destruct (parseable journey) eqn:Hp.
    2: { destruct (model_credits_unparseable _ half_life _ Hin
                     ltac:(discriminate) He Hp) as (tp' & _ & _ & Hraise).
         congruence. }
    unfold model_credits in Hcs. simpl in Hcs.
    destruct (time_decay_credits_eligible (ln 2 / half_life) _ He Hp)
      as (ks & init & tl & a & _ & _ & Hperm & _ & _ & _ & H).
    rewrite H in Hcs. injection Hcs as <-.
    rewrite <- list_fmap_compose. rewrite <- Hperm in Htp.
    apply list_elem_of_fmap in Htp as (p & -> & Hp').
    apply list_elem_of_fmap. exists p. split; [reflexivity|exact Hp'].
  - assert (Hin : "position-based"%string ∈ MODELS)
      by (unfold MODELS; rewrite !elem_of_cons; auto 10).
    destruct (parseable journey) eqn:Hp.
    2: { destruct (model_credits_unparseable _ half_life _ Hin
                     ltac:(discriminate) He Hp) as (tp' & _ & _ & Hraise).
         congruence. }
    unfold model_credits in Hcs. simpl in Hcs.
    destruct (sorted_eligible _ He Hp) as (ks & Hs & Hperm & _ & _ & _).
    destruct (position_based_credits_sorted _ _ He Hs) as (H1 & H2 & H3).
    rewrite <- Hperm in Htp.
    assert (Hs_ne : ks.*2 <> []).
    { intros E. rewrite E in Htp. apply elem_of_nil in Htp. exact Htp. }
    destruct (position_cases _ Hs_ne)
      as [(a & Ha)|[(a & b & Hab)|(a & mid & b & Hmid & Hamb)]].
    + rewrite (H1 a Ha) in Hcs. injection Hcs as <-.
      rewrite Ha in Htp. apply list_elem_of_singleton in Htp. subst tp. left.
    + rewrite (H2 a b Hab) in Hcs. injection Hcs as <-.
      rewrite Hab in Htp. rewrite !elem_of_cons, elem_of_nil in Htp.
      destruct Htp as [-> | [-> | []]]; simpl;
        rewrite !elem_of_cons; auto.
    + rewrite (H3 a mid b Hmid Hamb) in Hcs. injection Hcs as <-.
      rewrite Hamb in Htp. rewrite !fmap_cons, each_gets_channels. simpl.
      rewrite elem_of_cons, elem_of_app, list_elem_of_singleton in Htp.
      rewrite !elem_of_cons.
      destruct Htp as [-> | [Htp | ->]]; auto.
      right. right. apply list_elem_of_fmap_2. exact Htp.
Qed.

Lemma journeys_credits_covers (model_name : string) (half_life : R)
    (journeys : list Journey) (all : list (string * R))
    (journey : Journey) (tp : Touchpoint) :
  model_name ∈ ["linear"; "time-decay"; "position-based"]%string ->
  journeys_credits (model_credits model_name half_life) journeys = Ok all ->
  journey ∈ journeys -> eligible journey = true ->
  tp ∈ get_touchpoints journey ->
  channel tp ∈ all.*1.
Proof.
  intros Hm. revert all. induction journeys as [|j js IH]; intros all H Hj He Htp;
    simpl in H.
  - apply elem_of_nil in Hj. destruct Hj.
  - apply bind_ok in H as (cs & Hcs & H).
    apply bind_ok in H as (more & Hmore & [= <-]).
    rewrite fmap_app. apply elem_of_app.
    apply elem_of_cons in Hj as [->|Hj].
    + left. eapply model_credits_covers; eauto.
    + right. eapply IH; eauto.
Qed.

(** X19 (keys of the ledger).  For the linear, time-decay and
    position-based models, the channels with an entry in the returned ledger
    are exactly the channels of the touchpoints of the converted journeys
    that have a touchpoint: each such touchpoint's channel gets an entry,
    also when the credit is 0. *)
Theorem ledger_keys_all_touchpoints (model_name : string) (half_life : R)
    (journeys : list Journey) (credits : gmap string R) (ch : string) :
  model_name ∈ ["linear"; "time-decay"; "position-based"]%string ->
  run_model model_name journeys half_life = Ok credits ->
  is_Some (credits !! ch)
  <-> exists j tp, j ∈ journeys /\ eligible j = true
        /\ tp ∈ get_touchpoints j /\ channel tp = ch.
Proof.
  intros Hm3 Hrun.
  assert (Hm : model_name ∈ MODELS).
  { rewrite !elem_of_cons, elem_of_nil in Hm3.
    destruct Hm3 as [-> | [-> | [-> | []]]];
      unfold MODELS; rewrite !elem_of_cons; auto 10. }
  pose proof (run_model_ok_half_life _ _ _ _ Hrun) as Hhl.
  rewrite run_model_credits in Hrun by assumption.
  apply bind_ok in Hrun as (all & Hall & [= <-]). split.
  - intros Hch. apply lookup_apply_credits_is_Some in Hch as [Hch|Hch].
    { rewrite lookup_empty in Hch. destruct Hch as [? Hch]. discriminate. }
    exact (journeys_credits_channels _ _ _ _ _ Hm Hall Hch).
  - intros (j & tp & Hj & He & Htp & <-).
    apply lookup_apply_credits_elem.
    exact (journeys_credits_covers _ _ _ _ _ _ Hm3 Hall Hj He Htp).
Qed.

End Attribution.

(** ** The theorems on the sample journeys *)

Lemma time_decay_empty_run :
  run_model strptime_iso "time-decay" [] 7 = Ok ∅.
Proof.
  unfold run_model. simpl. unfold time_decay_attribution.
  destruct (Req_dec_T 7 0) as [H|_]; [lra|reflexivity].
Defined.

Lemma credit_conservation_witness :
  exists credits',
    run_model strptime_iso "time-decay" ([] ++ [journey_abc]) 7 = Ok credits'
    /\ ledger_total credits' = ledger_total ∅ + get_revenue journey_abc 1.
Proof.
  apply (credit_conservation strptime_iso "time-decay" 7 [] journey_abc ∅).
  - unfold MODELS. rewrite !elem_of_cons. auto 10.
  - intros _. lra.
  - reflexivity.
  - reflexivity.
  - exact time_decay_empty_run.
Defined.





(** C5 on the code.  The half-life is not validated.  With [half_life = 0]
    the run fails with the [ZeroDivisionError] of the division that computes
    the decay rate.  With [half_life = -7] it fails with no error: the run
    on the journey A (day 0), B (day 5), C (day 10) returns a ledger, and in
    it the credit grows with the distance from the conversion: C, the
    touchpoint at the conversion, is credited least and A, ten days before
    it, most. *)
Theorem negative_half_life_inverts_decay :
  run_model strptime_iso "time-decay" [journey_abc] 0
  = Raise ZeroDivisionError
  /\ exists credits,
       run_model strptime_iso "time-decay" [journey_abc] (-7) = Ok credits
       /\ dict_get credits "C" 0 < dict_get credits "B" 0
       /\ dict_get credits "B" 0 < dict_get credits "A" 0.
Proof.
  split; [apply run_model_time_decay_zero|].
  destruct (time_decay_credits_eligible strptime_iso (ln 2 / -7) journey_abc
              eq_refl eq_refl)
    as (ks & init & tl & last & Hs & Hks & _ & _ & Hkeys & _ & Hcs).
  assert (Hsorted : sorted (get_touchpoints journey_abc)
                      (timestamp_key strptime_iso)
                    = Ok [tp_A; tp_B; tp_C]) by reflexivity.
  rewrite Hsorted in Hs. injection Hs as Hs.
  destruct ks as [|[a x] [|[b y] [|[c z] [|? ?]]]]; try discriminate Hs.
  simpl in Hs. injection Hs as <- <- <-.
  assert (HA : timestamp_key strptime_iso tp_A = Ok 1704067200%Z)
    by (vm_compute; reflexivity).
  assert (HB : timestamp_key strptime_iso tp_B = Ok 1704499200%Z)
    by (vm_compute; reflexivity).
  assert (HC : timestamp_key strptime_iso tp_C = Ok 1704931200%Z)
    by (vm_compute; reflexivity).
  apply Forall_cons in Hkeys as [Ha Hkeys].
  apply Forall_cons in Hkeys as [Hb Hkeys].
  apply Forall_cons in Hkeys as [Hc _].
  change (timestamp_key strptime_iso tp_A = Ok a) in Ha.
  change (timestamp_key strptime_iso tp_B = Ok b) in Hb.
  change (timestamp_key strptime_iso tp_C = Ok c) in Hc.
  rewrite HA in Ha. rewrite HB in Hb. rewrite HC in Hc.
  injection Ha as <-. injection Hb as <-. injection Hc as <-.
  change [(1704067200%Z, tp_A); (1704499200%Z, tp_B); (1704931200%Z, tp_C)]
    with ([(1704067200%Z, tp_A); (1704499200%Z, tp_B)]
            ++ [(1704931200%Z, tp_C)]) in Hks.
  apply app_inj_tail in Hks as [_ [= <- <-]].
  assert (Hm : "time-decay"%string ∈ MODELS)
    by (unfold MODELS; rewrite !elem_of_cons; auto 10).
  assert (Hempty : run_model strptime_iso "time-decay" [] (-7) = Ok ∅).
  { unfold run_model. simpl. unfold time_decay_attribution.
    destruct (Req_dec_T (-7) 0) as [H|_]; [lra|reflexivity]. }
  assert (Hnz : "time-decay"%string = "time-decay"%string -> -7 <> 0)
    by (intros _; lra).
  pose proof (run_model_snoc strptime_iso "time-decay" (-7) [] journey_abc ∅ _
                Hm Hnz Hempty Hcs) as Hrun.
  eexists. split; [exact Hrun|].
  clear Hrun Hcs Hempty.
  rewrite !fmap_cons, !fmap_nil.
  rewrite !apply_credits_cons. unfold apply_credits. cbn [foldl fst snd].
  rewrite !dict_get_add_credit.
  change (get_revenue journey_abc 1) with 100.
  change (dict_get ∅ "A" 0) with 0.
  change (dict_get ∅ "B" 0) with 0.
  change (dict_get ∅ "C" 0) with 0.
  assert (Hln : 0 < ln 2) by (rewrite <- ln_1; apply ln_increasing; lra).
  assert (HCB : decay_weight (ln 2 / -7) 1704931200%Z 1704931200%Z
                < decay_weight (ln 2 / -7) 1704931200%Z 1704499200%Z).
  { unfold decay_weight. apply exp_increasing.
    change (1704931200 - 1704931200)%Z with 0%Z.
    change (1704931200 - 1704499200)%Z with 432000%Z. lra. }
  assert (HBA : decay_weight (ln 2 / -7) 1704931200%Z 1704499200%Z
                < decay_weight (ln 2 / -7) 1704931200%Z 1704067200%Z).
  { unfold decay_weight. apply exp_increasing.
    change (1704931200 - 1704499200)%Z with 432000%Z.
    change (1704931200 - 1704067200)%Z with 864000%Z. lra. }
  pose proof (decay_weight_pos (ln 2 / -7) 1704931200%Z 1704931200%Z) as HC0.
  set (wA := decay_weight _ _ 1704067200%Z) in *.
  set (wB := decay_weight _ _ 1704499200%Z) in *.
  set (wC := decay_weight _ _ 1704931200%Z) in *.
  assert (Htotal : 0 < / sum [wA; wB; wC]).
  { apply Rinv_0_lt_compat. rewrite !sum_cons. change (sum []) with 0. lra. }
  repeat case_decide; try discriminate;
    try (exfalso;
         match goal with H : _ <> _ |- _ => apply H; reflexivity end).
  unfold Rdiv. split; nra.
Qed.

(** C6 on the code: for a converted journey without a [revenue] key the
    summary counts 0, while the models credit the default 1. *)
Theorem summary_revenue_default_is_zero :
  summary_total_revenue [journey_no_revenue] = 0
  /\ run_model strptime_iso "first-touch" [journey_no_revenue] 7
     = Ok {[ "A"%string := 1 ]}.
Proof.
  split.
  - unfold summary_total_revenue.
    rewrite filter_cons_True by exact I. rewrite filter_nil.
    unfold sum. simpl. change (get_revenue journey_no_revenue 0) with 0. lra.
  - unfold run_model. simpl. unfold first_touch_attribution. simpl.
    f_equal. unfold add_credit, dict_get. rewrite lookup_empty. simpl.
    change (get_revenue journey_no_revenue 1) with 1.
    rewrite insert_empty. f_equal. lra.
Qed.

Lemma journey_order_independence_witness :
  run_model strptime_iso "position-based" [journey_no_revenue; journey_abc] 7
  = run_model strptime_iso "position-based" [journey_abc; journey_no_revenue] 7.
Proof.
  apply (journey_order_independence strptime_iso "position-based" 7
           [journey_abc; journey_no_revenue] [journey_no_revenue; journey_abc]).
  - unfold MODELS. rewrite !elem_of_cons. auto 10.
  - repeat (apply Forall_cons_2; [reflexivity|]). apply Forall_nil_2.
  - apply Permutation_swap.
Defined.

Lemma ineligible_journey_policy_witness :
  run_model strptime_iso "linear" ([journey_abc] ++ journey_unconverted :: []) 7
  = run_model strptime_iso "linear" ([journey_abc] ++ []) 7
  /\ total_journeys
       (compute_summary round_half_even
          ([journey_abc] ++ journey_unconverted :: []))
     = S (total_journeys (compute_summary round_half_even ([journey_abc] ++ [])))
  /\ forall tp, tp ∈ get_touchpoints journey_unconverted ->
       channel tp
       ∈ channels_observed
           (compute_summary round_half_even
              ([journey_abc] ++ journey_unconverted :: [])).
Proof.
  apply (ineligible_journey_policy strptime_iso round_half_even "linear" 7
           [journey_abc] [] journey_unconverted).
  - unfold MODELS. rewrite !elem_of_cons. auto 10.
  - left. reflexivity.
Defined.

Lemma time_decay_total_weight_positive_witness :
  exists s last conversion_time weights,
    sorted (get_touchpoints journey_abc) (timestamp_key strptime_iso) = Ok s
    /\ getitem s (-1) = Ok last
    /\ parse_timestamp strptime_iso (timestamp last) = Ok conversion_time
    /\ raw_weights strptime_iso (ln 2 / 7) conversion_time s = Ok weights
    /\ 1 <= sum weights
    /\ forall credits,
         time_decay_body strptime_iso (ln 2 / 7) credits journey_abc
         = credit_shares weights (sum weights) (get_revenue journey_abc 1) 0 s
             credits.
Proof.
  apply (time_decay_total_weight_positive strptime_iso 7 journey_abc).
  - lra.
  - reflexivity.
  - reflexivity.
Defined.

Lemma ledger_non_negative_witness :
  run_model strptime_iso "first-touch" [journey_abc] 7
  = Ok (add_credit ∅ "A" 100)
  /\ forall (ch : string) (v : R),
       add_credit ∅ "A" 100 !! ch = Some v -> 0 <= v.
Proof.
  split; [reflexivity|].
  apply (ledger_non_negative strptime_iso "first-touch" 7 [journey_abc]).
  - unfold MODELS. rewrite !elem_of_cons. auto 10.
  - intros j Hj. apply list_elem_of_singleton in Hj. subst j.
    change (get_revenue journey_abc 1) with 100. lra.
  - discriminate.
  - reflexivity.
Defined.

(** ** Further properties on the sample journeys *)

Lemma run_model_unknown_model_witness :
  run_model strptime_iso "shapley" [journey_abc] 7
  = Raise (ValueError
      (String.append "Unknown model: "
        (String.append "shapley"
          ". Choose from: first-touch, last-touch, linear, time-decay, position-based"))).
Proof.
  apply (run_model_unknown_model strptime_iso "shapley" [journey_abc] 7).
  unfold MODELS. rewrite !elem_of_cons, elem_of_nil.
  intros [H|[H|[H|[H|[H|[]]]]]]; discriminate H.
Defined.

Lemma first_touch_credits_earliest_witness :
  exists first,
    first ∈ get_touchpoints journey_abc
    /\ (forall tp, tp ∈ get_touchpoints journey_abc ->
          chronological strptime_iso first tp)
    /\ first_touch_attribution strptime_iso ([] ++ [journey_abc])
       = Ok (add_credit ∅ (channel first) (get_revenue journey_abc 1)).
Proof.
  apply (first_touch_credits_earliest strptime_iso [] journey_abc ∅);
    reflexivity.
Defined.

Lemma last_touch_credits_latest_witness :
  exists last,
    last ∈ get_touchpoints journey_abc
    /\ (forall tp, tp ∈ get_touchpoints journey_abc ->
          chronological strptime_iso tp last)
    /\ last_touch_attribution strptime_iso ([] ++ [journey_abc])
       = Ok (add_credit ∅ (channel last) (get_revenue journey_abc 1)).
Proof.
  apply (last_touch_credits_latest strptime_iso [] journey_abc ∅);
    reflexivity.
Defined.




Lemma ledger_keys_observed_witness :
  run_model strptime_iso "first-touch" [journey_abc; journey_unconverted] 7
  = Ok (add_credit ∅ "A" 100)
  /\ (exists j tp, j ∈ [journey_abc; journey_unconverted]
        /\ eligible j = true /\ tp ∈ get_touchpoints j /\ channel tp = "A"%string)
  /\ "A"%string
     ∈ channels_observed
         (compute_summary round_half_even [journey_abc; journey_unconverted]).
Proof.
  split; [reflexivity|].
  apply (ledger_keys_observed strptime_iso round_half_even "first-touch" 7
           [journey_abc; journey_unconverted] (add_credit ∅ "A" 100)).
  - unfold MODELS. rewrite !elem_of_cons. auto 10.
  - reflexivity.
  - rewrite lookup_add_credit. rewrite decide_True by reflexivity. eauto.
Defined.

(** A touchpoint seven days before [tp_C]. *)
Definition tp_D : Touchpoint :=
  {| channel := "D"; timestamp := "2024-01-04" |}.

Lemma time_decay_weight_monotone_witness :
  exists w_i w_j,
    [decay_weight (ln 2 / 7) latest_abc 1704067200%Z;
     decay_weight (ln 2 / 7) latest_abc 1704931200%Z] !! 0%nat = Some w_i
    /\ [decay_weight (ln 2 / 7) latest_abc 1704067200%Z;
        decay_weight (ln 2 / 7) latest_abc 1704931200%Z] !! 1%nat = Some w_j
    /\ w_i <= w_j.
Proof.
  apply (time_decay_weight_monotone strptime_iso 7 latest_abc [tp_A; tp_C]
           _ 0 1 tp_A tp_C 1704067200%Z 1704931200%Z).
  - lra.
  - reflexivity.
  - reflexivity.
  - reflexivity.
  - reflexivity.
  - reflexivity.
  - apply Z.leb_le. reflexivity.
Defined.

Lemma time_decay_half_life_witness :
  [decay_weight (ln 2 / 7) latest_abc 1704326400%Z;
   decay_weight (ln 2 / 7) latest_abc 1704931200%Z] !! 0%nat = Some (1 / 2).
Proof.
  apply (time_decay_half_life strptime_iso 7 latest_abc [tp_D; tp_C]
           _ 0 tp_D 1704326400%Z).
  - lra.
  - reflexivity.
  - reflexivity.
  - reflexivity.
  - change (latest_abc - 1704326400%Z)%Z with 604800%Z. lra.
Defined.

(** [journey_abc] with its touchpoints listed in time order. *)
Definition journey_abc_sorted : Journey :=
  {| converted := Some true; revenue := Some 100;
     touchpoints := Some [tp_A; tp_B; tp_C] |}.

Lemma touchpoint_order_independence_witness :
  run_model strptime_iso "position-based" ([] ++ journey_abc_sorted :: []) 7
  = run_model strptime_iso "position-based" ([] ++ journey_abc :: []) 7.
Proof.
  apply (touchpoint_order_independence strptime_iso "position-based" 7 [] []
           journey_abc journey_abc_sorted).
  - unfold MODELS. rewrite !elem_of_cons. auto 10.
  - reflexivity.
  - intros a b Ha Hb H.
    change (get_touchpoints journey_abc) with [tp_C; tp_A; tp_B] in Ha, Hb.
    rewrite !elem_of_cons, elem_of_nil in Ha, Hb.
    destruct Ha as [-> | [-> | [-> | []]]];
      destruct Hb as [-> | [-> | [-> | []]]];
      first [reflexivity | vm_compute in H; discriminate H].
  - reflexivity.
  - reflexivity.
  - symmetry. apply (Permutation_cons_append [tp_A; tp_B] tp_C).
Defined.

Lemma single_touchpoint_full_credit_witness :
  run_model strptime_iso "time-decay" ([] ++ [journey_no_revenue]) 7
  = Ok (add_credit ∅ (channel tp_A) (get_revenue journey_no_revenue 1)).
Proof.
  apply (single_touchpoint_full_credit strptime_iso "time-decay" 7 []
           journey_no_revenue tp_A ∅).
  - unfold MODELS. rewrite !elem_of_cons. auto 10.
  - reflexivity.
  - reflexivity.
  - reflexivity.
  - exact time_decay_empty_run.
Defined.

(** Two touchpoints at the time of [tp_A], two at the time of [tp_C]. *)
Definition tp_A' : Touchpoint :=
  {| channel := "Y"; timestamp := "2024-01-01 00:00:00" |}.

Definition tp_C' : Touchpoint :=
  {| channel := "Z"; timestamp := "2024-01-11" |}.

Definition journey_ties : Journey :=
  {| converted := Some true; revenue := Some 10;
     touchpoints := Some [tp_A; tp_A'; tp_C; tp_C'] |}.

(** Converted, with a revenue and no touchpoint. *)
Definition journey_touchless : Journey :=
  {| converted := Some true; revenue := Some 25; touchpoints := Some [] |}.

Lemma journey_ties_times :
  forall tp, tp ∈ get_touchpoints journey_ties ->
    parse_timestamp strptime_iso (timestamp tp) = Ok (time_of_iso tp).
Proof.
  intros tp Htp.
  change (get_touchpoints journey_ties) with [tp_A; tp_A'; tp_C; tp_C'] in Htp.
  rewrite !elem_of_cons, elem_of_nil in Htp.
  destruct Htp as [-> | [-> | [-> | [-> | []]]]]; reflexivity.
Defined.

Lemma first_touch_tie_break_witness :
  first_touch_attribution strptime_iso ([] ++ [journey_ties])
  = Ok (add_credit ∅ (channel tp_A) (get_revenue journey_ties 1)).
Proof.
  apply (first_touch_tie_break strptime_iso [] journey_ties ∅ time_of_iso
           [] [tp_A'; tp_C; tp_C'] tp_A).
  - reflexivity.
  - reflexivity.
  - exact journey_ties_times.
  - intros tp Htp. apply elem_of_nil in Htp. destruct Htp.
  - intros tp Htp. rewrite !elem_of_cons, elem_of_nil in Htp.
    destruct Htp as [-> | [-> | [-> | []]]]; apply Z.leb_le; reflexivity.
  - reflexivity.
Defined.

Lemma last_touch_tie_break_witness :
  last_touch_attribution strptime_iso ([] ++ [journey_ties])
  = Ok (add_credit ∅ (channel tp_C') (get_revenue journey_ties 1)).
Proof.
  apply (last_touch_tie_break strptime_iso [] journey_ties ∅ time_of_iso
           [tp_A; tp_A'; tp_C] [] tp_C').
  - reflexivity.
  - reflexivity.
  - exact journey_ties_times.
  - intros tp Htp. rewrite !elem_of_cons, elem_of_nil in Htp.
    destruct Htp as [-> | [-> | [-> | []]]]; apply Z.leb_le; reflexivity.
  - intros tp Htp. apply elem_of_nil in Htp. destruct Htp.
  - reflexivity.
Defined.

Lemma summary_counts_touchless_conversion_witness :
  summary_total_revenue ([journey_abc] ++ journey_touchless :: [])
  = summary_total_revenue ([journey_abc] ++ [])
    + get_revenue journey_touchless 0
  /\ converted_journeys
       (compute_summary round_half_even
          ([journey_abc] ++ journey_touchless :: []))
     = S (converted_journeys
            (compute_summary round_half_even ([journey_abc] ++ [])))
  /\ run_model strptime_iso "linear" ([journey_abc] ++ journey_touchless :: []) 7
     = run_model strptime_iso "linear" ([journey_abc] ++ []) 7.
Proof.
  apply (summary_counts_touchless_conversion strptime_iso round_half_even
           "linear" 7 [journey_abc] [] journey_touchless).
  - unfold MODELS. rewrite !elem_of_cons. auto 10.
  - reflexivity.
  - reflexivity.
Defined.

Lemma ledger_empty_iff_no_eligible_witness :
  run_model strptime_iso "first-touch" [journey_unconverted; journey_touchless] 7
  = Ok ∅
  /\ ((∅ : gmap string R) = ∅
      <-> Forall (fun j => eligible j = false)
            [journey_unconverted; journey_touchless]).
Proof.
  split; [reflexivity|].
  apply (ledger_empty_iff_no_eligible strptime_iso "first-touch" 7).
  - unfold MODELS. rewrite !elem_of_cons. auto 10.
  - reflexivity.
Defined.

Lemma ledger_keys_all_touchpoints_witness :
  run_model strptime_iso "linear" [journey_bad_timestamp] 7
  = Ok {[ "email"%string := 100 ]}
  /\ (is_Some (({[ "email"%string := 100 ]} : gmap string R) !! "email"%string)
      <-> exists j tp, j ∈ [journey_bad_timestamp] /\ eligible j = true
            /\ tp ∈ get_touchpoints j /\ channel tp = "email"%string).
Proof.
  assert (Hrun : run_model strptime_iso "linear" [journey_bad_timestamp] 7
                 = Ok {[ "email"%string := 100 ]}).
  { unfold run_model. simpl. unfold linear_attribution. simpl.
    unfold linear_body. simpl. f_equal.
    unfold add_credit, dict_get. rewrite lookup_empty. simpl.
    rewrite safe_divide_nonzero by lra.
    change (get_revenue journey_bad_timestamp 1) with 100.
    rewrite insert_empty. f_equal. lra. }
  split; [exact Hrun|].
  apply (ledger_keys_all_touchpoints strptime_iso "linear" 7
           [journey_bad_timestamp]).
  - rewrite !elem_of_cons. auto.
  - exact Hrun.
Defined.

(** ** Binary64 arithmetic

    Python's [float] is IEEE 754 binary64, and so is the kernel's [float]:
    here [first_touch_attribution] and [time_decay_attribution] are embedded
    once more, line by line, with [float] where the source has a Python
    float.  A decimal literal denotes the nearest binary64 value, as it does
    in Python and in JSON as Python reads it.  [math.exp] belongs to the
    Python library and is a parameter. *)

Module Binary64.

#[local] Set Warnings "-inexact-float".

(** A journey as deserialized from JSON, its revenue a float. *)
Record Journey : Type := {
  converted : option bool;
  revenue : option float;
  touchpoints : option (list Touchpoint)
}.

(** [journey.get("converted", False)] *)
Definition get_converted (journey : Journey) : bool :=
  default false (converted journey).

(** [journey.get("touchpoints", [])] *)
Definition get_touchpoints (journey : Journey) : list Touchpoint :=
  default [] (touchpoints journey).

(** [journey.get("revenue", d)] *)
Definition get_revenue (journey : Journey) (d : float) : float :=
  default d (revenue journey).

(** [credits.get(channel, 0.0)] *)
Definition dict_get (credits : gmap string float) (k : string) (d : float)
  : float :=
  default d (credits !! k).

(** [credits[channel] = credits.get(channel, 0.0) + amount] *)
Definition add_credit (credits : gmap string float) (ch : string)
    (amount : float) : gmap string float :=
  <[ch := (dict_get credits ch 0 + amount)%float]> credits.

(** [for journey in journeys: body], threading the ledger. *)
Fixpoint for_journeys
    (body : gmap string float -> Journey -> result (gmap string float))
    (journeys : list Journey) (credits : gmap string float)
  : result (gmap string float) :=
  match journeys with
  | [] => Ok credits
  | journey :: rest =>
      let* credits' := body credits journey in
      for_journeys body rest credits'
  end.

(** [math.log(2)] *)
Definition math_log_2 : float := 0x1.62e42fefa39efp-1%float.

(** [(a - b).total_seconds()]: a whole number of seconds, which a float
    holds exactly below [2^53]. *)
Definition total_seconds_between (a b : datetime) : float :=
  let d := (a - b)%Z in
  if (d <? 0)%Z then (- of_uint63 (Uint63.of_Z (- d)))%float
  else of_uint63 (Uint63.of_Z d).

(** [sum(l)]: the additions from the left, starting at [0].  (CPython 3.12
    and later carry a compensation term along; it changes neither the sum
    of a single float nor a NaN.) *)
Definition sum (l : list float) : float := foldl PrimFloat.add 0%float l.

(** [safe_divide(numerator, denominator, default)] *)
Definition safe_divide_default (numerator denominator default : float)
  : float :=
  if (denominator =? 0)%float then default
  else (numerator / denominator)%float.

Definition safe_divide (numerator denominator : float) : float :=
  safe_divide_default numerator denominator 0.

Section Models.

(** [datetime.strptime(ts, fmt)]; [None] stands for its [ValueError]. *)
Variable strptime : string -> string -> option datetime.

(** [math.exp(x)]: a float, or the [OverflowError] of a result out of
    range. *)
Variable math_exp : float -> result float.

Definition first_touch_body (credits : gmap string float) (journey : Journey)
  : result (gmap string float) :=
  if negb (get_converted journey) then Ok credits else
  let touchpoints := get_touchpoints journey in
  if is_empty touchpoints then Ok credits else
  let* sorted_tp := sorted touchpoints (timestamp_key strptime) in
  let* first := getitem sorted_tp 0 in
  let revenue := get_revenue journey 1 in
  Ok (add_credit credits (channel first) revenue).

Definition first_touch_attribution (journeys : list Journey)
  : result (gmap string float) :=
  for_journeys first_touch_body journeys ∅.

(** The loop "Calculate raw weights" of [time_decay_attribution]. *)
Fixpoint raw_weights (decay_rate : float) (conversion_time : datetime)
    (sorted_tp : list Touchpoint) : result (list float) :=
  match sorted_tp with
  | [] => Ok []
  | tp :: rest =>
      let* tp_time := parse_timestamp strptime (timestamp tp) in
      let days_before :=
        (total_seconds_between conversion_time tp_time / 86400)%float in
      let* weight := math_exp (- decay_rate * days_before)%float in
      let* weights := raw_weights decay_rate conversion_time rest in
      Ok (weight :: weights)
  end.

(** [for i, tp in enumerate(sorted_tp)], entered at index [i]. *)
Fixpoint credit_shares (weights : list float) (total_weight revenue : float)
    (i : nat) (sorted_tp : list Touchpoint) (credits : gmap string float)
  : result (gmap string float) :=
  match sorted_tp with
  | [] => Ok credits
  | tp :: rest =>
      let* w := getitem weights (Z.of_nat i) in
      let share := (safe_divide w total_weight * revenue)%float in
      credit_shares weights total_weight revenue (S i) rest
        (add_credit credits (channel tp) share)
  end.

Definition time_decay_body (decay_rate : float) (credits : gmap string float)
    (journey : Journey) : result (gmap string float) :=
  if negb (get_converted journey) then Ok credits else
  let touchpoints := get_touchpoints journey in
  if is_empty touchpoints then Ok credits else
  let revenue := get_revenue journey 1 in
  let* sorted_tp := sorted touchpoints (timestamp_key strptime) in
  let* last := getitem sorted_tp (-1) in
  let* conversion_time := parse_timestamp strptime (timestamp last) in
  let* weights := raw_weights decay_rate conversion_time sorted_tp in
  let total_weight := sum weights in
  if (total_weight =? 0)%float then Ok credits else
  credit_shares weights total_weight revenue 0 sorted_tp credits.

(** Python raises [ZeroDivisionError] on a float division by [0.0] or
    [-0.0] and on nothing else: a quotient out of range is an infinity. *)
Definition time_decay_attribution (journeys : list Journey)
    (half_life_days : float) : result (gmap string float) :=
  if (half_life_days =? 0)%float then Raise ZeroDivisionError else
  let decay_rate := (math_log_2 / half_life_days)%float in
  for_journeys (time_decay_body decay_rate) journeys ∅.

End Models.

(** A reference [math.exp]: NaN and the infinities as the C library has
    them, [OverflowError] above the largest argument with a finite result,
    and in between the Taylor polynomial at [x / 2^10], squared ten times. *)
Fixpoint exp_series (n : nat) (k y : float) : float :=
  match n with
  | O => 1%float
  | S n' => (1 + y / k * exp_series n' (k + 1) y)%float
  end.

Definition exp_reference (x : float) : result float :=
  if is_nan x then Ok nan
  else if (x =? infinity)%float then Ok infinity
  else if (0x1.62e42fefa39efp+9 <? x)%float then Raise OverflowError
  else if (x <? -746)%float then Ok 0%float
  else Ok (Nat.iter 10 (fun r => (r * r)%float)
             (exp_series 20 1 (x / 1024)%float)).

(** Three converted journeys with one touchpoint each, all on channel A. *)
Definition journey_a (r : float) : Journey :=
  {| converted := Some true; revenue := Some r; touchpoints := Some [tp_A] |}.

Definition journeys_ascending : list Journey :=
  [journey_a 0.1; journey_a 0.2; journey_a 0.3].

Definition journeys_descending : list Journey :=
  [journey_a 0.3; journey_a 0.2; journey_a 0.1].

(** C7 as stated fails in binary64: first-touch on three journeys of
    channel A with revenues 0.1, 0.2 and 0.3 credits A with
    [((0 + 0.1) + 0.2) + 0.3 = 0.6000000000000001], and on the same journeys
    in the reverse order with [((0 + 0.3) + 0.2) + 0.1 = 0.6]: the addition
    of floats is not associative. *)
Lemma first_touch_order_dependent :
  journeys_descending ≡ₚ journeys_ascending
  /\ Forall (fun j => Forall (fun tp =>
               is_ok (parse_timestamp strptime_iso (timestamp tp)) = true)
                      (get_touchpoints j))
       journeys_ascending
  /\ first_touch_attribution strptime_iso journeys_ascending
     = Ok {[ "A"%string := 0.6000000000000001%float ]}
  /\ first_touch_attribution strptime_iso journeys_descending
     = Ok {[ "A"%string := 0.6%float ]}
  /\ (0.6000000000000001 =? 0.6)%float = false
  /\ first_touch_attribution strptime_iso journeys_descending
     <> first_touch_attribution strptime_iso journeys_ascending.
Proof.
  assert (H1 : first_touch_attribution strptime_iso journeys_ascending
               = Ok {[ "A"%string := 0.6000000000000001%float ]})
    by (vm_compute; reflexivity).
  assert (H2 : first_touch_attribution strptime_iso journeys_descending
               = Ok {[ "A"%string := 0.6%float ]})
    by (vm_compute; reflexivity).
  split; [|split; [|split; [exact H1|split; [exact H2|split]]]].
  - unfold journeys_descending, journeys_ascending.
    transitivity [journey_a 0.2; journey_a 0.3; journey_a 0.1];
      [apply Permutation_swap|].
    transitivity [journey_a 0.2; journey_a 0.1; journey_a 0.3];
      [apply perm_skip, Permutation_swap|].
    apply Permutation_swap.
  - repeat (apply Forall_cons_2;
              [apply Forall_cons_2; [reflexivity|apply Forall_nil_2]|]).
    apply Forall_nil_2.
  - reflexivity.
  - rewrite H1, H2. intros H.
    apply (f_equal (fun r => match r with
                             | Ok m => m !! "A"%string
                             | Raise _ => None
                             end)) in H.
    rewrite !lookup_singleton in H.
    apply (f_equal (fun v => match v with
                             | Some x => (x =? 0.6)%float
                             | None => false
                             end)) in H.
    vm_compute in H. discriminate H.
Qed.

(** C9 on the code.  The half-life [1e-310] is positive, and
    [math.log(2) / 1e-310] is out of the range of binary64: the decay rate is
    [inf].  For the latest touchpoint [days_before] is [0.0], the argument of
    [math.exp] is [-inf * 0.0 = nan] and the weight is NaN, so the total
    weight of a converted journey with one parseable touchpoint is NaN: it
    is neither at least 1 nor positive, and it is not [== 0] either, so
    the journey is not skipped. *)
Theorem subnormal_half_life_total_weight_nan
    (math_exp : float -> result float) :
  math_exp nan = Ok nan ->
  (0 <? 1e-310)%float = true
  /\ (math_log_2 / 1e-310)%float = infinity
  /\ exists s last conversion_time weights,
       sorted (get_touchpoints (journey_a 100)) (timestamp_key strptime_iso)
       = Ok s
       /\ getitem s (-1) = Ok last
       /\ parse_timestamp strptime_iso (timestamp last) = Ok conversion_time
       /\ raw_weights strptime_iso math_exp (math_log_2 / 1e-310)
            conversion_time s
          = Ok weights
       /\ is_nan (sum weights) = true
       /\ (1 <=? sum weights)%float = false
       /\ (0 <? sum weights)%float = false
       /\ (sum weights =? 0)%float = false.
Proof.
  intros Hexp. split; [reflexivity|]. split; [reflexivity|].
  exists [tp_A], tp_A, 1704067200%Z, [nan].
  split; [reflexivity|]. split; [reflexivity|]. split; [reflexivity|].
  split; [|repeat split; reflexivity].
  vm_compute in Hexp |- *. rewrite Hexp. reflexivity.
Qed.

(** C10 on the code.  With the positive half-life [1e-310], the time-decay
    model run on one converted journey of revenue 100 with one parseable
    touchpoint returns a ledger whose credit for the channel is NaN: the
    weight and the total weight are NaN, [total_weight == 0] is false, and
    [safe_divide(nan, nan) * 100.0] is NaN.  NaN is not [>= 0]. *)
Theorem subnormal_half_life_ledger_nan (math_exp : float -> result float) :
  math_exp nan = Ok nan ->
  (0 <? 1e-310)%float = true
  /\ (0 <=? get_revenue (journey_a 100) 1)%float = true
  /\ time_decay_attribution strptime_iso math_exp [journey_a 100] 1e-310
     = Ok {[ "A"%string := nan ]}
  /\ (0 <=? nan)%float = false.
Proof.
  intros Hexp. split; [reflexivity|]. split; [reflexivity|].
  split; [|reflexivity].
  vm_compute in Hexp |- *. rewrite Hexp. reflexivity.
Qed.

(** With the default half-life of 7 days the same journey is credited its
    revenue. *)
Lemma default_half_life_ledger :
  time_decay_attribution strptime_iso exp_reference [journey_a 100] 7
  = Ok {[ "A"%string := 100%float ]}.
Proof. vm_compute. reflexivity. Qed.

Lemma subnormal_half_life_total_weight_nan_witness :
  exp_reference nan = Ok nan
  /\ (0 <? 1e-310)%float = true
  /\ (math_log_2 / 1e-310)%float = infinity
  /\ exists s last conversion_time weights,
       sorted (get_touchpoints (journey_a 100)) (timestamp_key strptime_iso)
       = Ok s
       /\ getitem s (-1) = Ok last
       /\ parse_timestamp strptime_iso (timestamp last) = Ok conversion_time
       /\ raw_weights strptime_iso exp_reference (math_log_2 / 1e-310)
            conversion_time s
          = Ok weights
       /\ is_nan (sum weights) = true
       /\ (1 <=? sum weights)%float = false
       /\ (0 <? sum weights)%float = false
       /\ (sum weights =? 0)%float = false.
Proof.
  split; [reflexivity|].
  apply (subnormal_half_life_total_weight_nan exp_reference). reflexivity.
Defined.

Lemma subnormal_half_life_ledger_nan_witness :
  exp_reference nan = Ok nan
  /\ (0 <? 1e-310)%float = true
  /\ (0 <=? get_revenue (journey_a 100) 1)%float = true
  /\ time_decay_attribution strptime_iso exp_reference [journey_a 100] 1e-310
     = Ok {[ "A"%string := nan ]}
  /\ (0 <=? nan)%float = false.
Proof.
  split; [reflexivity|].
  apply (subnormal_half_life_ledger_nan exp_reference). reflexivity.
Defined.

End Binary64.
